(** * SimpleGC: a conservative mark-and-sweep collector (gc.cpp)

    A shallow embedding of [gc.cpp].  Pointers and [size_t] values are
    64-bit quantities, modelled as [Z] with the wrap-around of every
    arithmetic operation of the source written out.  The process memory
    is byte addressed; the heap map ([std::unordered_map<void*, size_t>])
    is a [gmap Z Z] from a block's base address to its size.

    Calls into the platform ([calloc], [mach_vm_region], [getsegbyname],
    the register and stack-pointer reads) are resolved by the environment:
    their results are inputs of the operations.  Every call that a
    property speaks about is recorded in an event log.

    The memory of the state is the memory the program and the scanner
    read: the stack, the data segment and the blocks in use.  Two kinds
    of bytes are not followed in it.  The bytes of a block that has been
    passed to [free] belong to the allocator, which may write to them:
    the [memset] and the [free] of the sweep are recorded as events, in
    the order they are made, and no property concludes anything about
    the bytes of a block after its [free].  The register buffer of a
    collection is a block of the collection's own, allocated and
    released within it; it is represented by its contents (see
    [register_buffer]) and its [calloc] and [free] are events.

    Left out: the text [debug_printf] writes when verbose logging is on
    (the flag itself is kept). *)

From Stdlib Require Import ZArith Lia List.
From Stdlib Require Import Init.Byte.
From stdpp Require Import gmap list fin_maps relations.

Local Open Scope Z_scope.

(** ** Machine arithmetic *)

Definition wrap64 (z : Z) : Z := z mod 2 ^ 64.

(** ** Memory *)

(** One byte per address. *)
Definition memory : Type := Z → byte.

Definition byte_val (b : byte) : Z := Z.of_N (Byte.to_N b).

(** [*p] for a [void **p] on a little-endian 64-bit machine. *)
Definition load64 (m : memory) (p : Z) : Z :=
  foldr (λ i acc, byte_val (m (p + Z.of_nat i)) + 256 * acc) 0 (seq 0 8).

(** [memset(p, c, n)]; [calloc] zeroes a block the same way. *)
Definition memset (m : memory) (p : Z) (c : byte) (n : Z) : memory :=
  λ x, if bool_decide (p ≤ x < p + n) then c else m x.

Definition byte_of_Z (z : Z) : byte :=
  match Byte.of_N (Z.to_N (z mod 256)) with
  | Some b => b
  | None => x00
  end.

(** A mutator store [*(uint64_t * )p = v]; the collector itself never
    stores a word, the stores are those of the program using it. *)
Definition store64 (m : memory) (p : Z) (v : Z) : memory :=
  λ x, if bool_decide (p ≤ x < p + 8)
       then byte_of_Z (v / 256 ^ (x - p))
       else m x.

(** ** The heap map *)

Abbreviation heapmap := (gmap Z Z).

(** ** Regions as the scanner walks them

    [gc_collect_scan_block] computes [end = start + length] in 64-bit
    arithmetic and runs [for (p = start; p < end; p++)] over [void **p],
    that is in steps of 8 bytes.  [word_count] is the number of turns
    of that loop. *)

Definition region_end (start length : Z) : Z := wrap64 (start + length).

Definition word_count (start length : Z) : nat :=
  Z.to_nat ((region_end start length - start + 7) / 8).

Definition region_addrs (start length : Z) : list Z :=
  map (λ i, start + 8 * Z.of_nat i) (seq 0 (word_count start length)).

Definition region_words (m : memory) (start length : Z) : list Z :=
  map (load64 m) (region_addrs start length).

(** ** The mark traversal

    [scan_words] is the body of [gc_collect_scan_block] run over the
    words of one region: a word that is a key of [allocations] and not
    yet a key of [marked] is copied into [marked] and its block scanned
    by a recursive call.  The call depth is what [fuel] bounds; the memory
    is not written during the mark phase, so the words of a region can be
    read before the loop starts. *)

Fixpoint scan_words (fuel : nat) (m : memory) (allocations : heapmap)
    (ws : list Z) (marked : heapmap) : option heapmap :=
  match fuel with
  | O => None
  | S fuel' =>
      (fix loop (ws : list Z) (marked : heapmap) : option heapmap :=
         match ws with
         | [] => Some marked
         | v :: ws' =>
             match allocations !! v with
             | Some sz =>
                 match marked !! v with
                 | None =>
                     match scan_words fuel' m allocations
                             (region_words m v sz) (<[v:=sz]> marked) with
                     | Some marked' => loop ws' marked'
                     | None => None
                     end
                 | Some _ => loop ws' marked
                 end
             | None => loop ws' marked
             end
         end) ws marked
  end.

Definition gc_collect_scan_block (fuel : nat) (m : memory)
    (allocations : heapmap) (start length : Z) (marked : heapmap)
    : option heapmap :=
  scan_words fuel m allocations (region_words m start length) marked.

(** Fuel that always suffices: one level per tracked block, plus the
    outermost call. *)
Definition mark_fuel (allocations : heapmap) : nat := S (size allocations).

(** ** Collector state *)

(** Calls that leave the collector, in the order they are made (newest
    first), with two markers of the collector's own: one per call of
    [internal_alloc] and one per run of [gc_collect]. *)
Inductive event : Type :=
| EvCalloc (nmemb size ret : Z)
| EvMemset (ptr : Z) (c : byte) (len : Z)
| EvFree (ptr : Z)
| EvInternalAlloc (size ret : Z)
| EvCollect.

(** The file-scope variables of gc.cpp, the memory they point into and
    the event log. *)
Record gc_state : Type := GcState {
  mem : memory;
  stack_start : Z;
  stack_length : Z;
  data_segment_start : Z;
  data_segment_length : Z;
  allocations : gmap Z Z;
  max_heap_size : Z;
  current_allocated : Z;
  verbose_logging : bool;
  overwrite_reclaimed_blocks : bool;
  gc_initialized : bool;
  events : list event
}.

Definition initial_state (m : memory) : gc_state :=
  {| mem := m; stack_start := 0; stack_length := 0;
     data_segment_start := 0; data_segment_length := 0;
     allocations := ∅; max_heap_size := 0; current_allocated := 0;
     verbose_logging := false; overwrite_reclaimed_blocks := false;
     gc_initialized := false; events := [] |}.

Definition set_mem (m : memory) (st : gc_state) : gc_state :=
  GcState m (stack_start st) (stack_length st) (data_segment_start st)
    (data_segment_length st) (allocations st) (max_heap_size st)
    (current_allocated st) (verbose_logging st)
    (overwrite_reclaimed_blocks st) (gc_initialized st) (events st).

Definition set_events (evs : list event) (st : gc_state) : gc_state :=
  GcState (mem st) (stack_start st) (stack_length st) (data_segment_start st)
    (data_segment_length st) (allocations st) (max_heap_size st)
    (current_allocated st) (verbose_logging st)
    (overwrite_reclaimed_blocks st) (gc_initialized st) evs.

Definition set_heap (a : gmap Z Z) (total : Z) (st : gc_state) : gc_state :=
  GcState (mem st) (stack_start st) (stack_length st) (data_segment_start st)
    (data_segment_length st) a (max_heap_size st)
    total (verbose_logging st)
    (overwrite_reclaimed_blocks st) (gc_initialized st) (events st).

Definition emit (e : event) (st : gc_state) : gc_state :=
  set_events (e :: events st) st.

(** ** Outcomes

    A call returns, or the process ends before it does: in [exit], or
    at a read or a write through a null pointer ([Undefined]: the access
    faults and the process is killed; nothing that follows in the source
    is executed).  [OutOfFuel] is the embedding's own: the mark recursion
    got less fuel than it needs. *)
Inductive outcome (A : Type) : Type :=
| Ok (a : A)
| Exit (status : Z)
| Undefined
| OutOfFuel.
Arguments Ok {A} a.
Arguments Exit {A} status.
Arguments Undefined {A}.
Arguments OutOfFuel {A}.

(** The call does not return: the process has ended. *)
Definition ends_process {A : Type} (o : outcome A) : bool :=
  match o with
  | Exit _ | Undefined => true
  | Ok _ | OutOfFuel => false
  end.

#[global] Instance outcome_ret : MRet outcome := λ A a, Ok a.
#[global] Instance outcome_bind : MBind outcome := λ A B f c,
  match c with
  | Ok a => f a
  | Exit status => Exit status
  | Undefined => Undefined
  | OutOfFuel => OutOfFuel
  end.

(** ** The platform *)

(** What the Mach calls of [gc_init] answer: the return code and the
    out-parameters of [mach_vm_region] on the stack pointer, the
    [__DATA] segment command found by [getsegbyname] ([None] for a null
    result) as [(vmaddr, vmsize)], and the image slide. *)
Record platform : Type := Platform {
  region_kr : Z;
  region_address : Z;
  region_size : Z;
  data_segment : option (Z * Z);
  image_slide : Z
}.

(** What one collection reads from the machine: the address [calloc]
    returns for the 15-slot register buffer, the 14 registers that
    [get_registers] copies, and the stack pointer. *)
Record snapshot : Type := Snapshot {
  scratch : Z;
  registers : list Z;
  curr_stack : Z
}.

(** The register buffer as the scan sees it: slots 0..13 are written by
    [get_registers], slot 14 keeps the zero [calloc] put there.  The
    buffer is the collection's own and is released before the sweep.
    [calloc] gives it memory that belongs to no live block, so it is
    represented by its contents rather than stored in [mem]; its
    [calloc] and [free] are logged. *)
Definition register_buffer (s : snapshot) : list Z :=
  resize 14 0 (registers s) ++ [0].

(** What one [gc_alloc] reads from its environment: the result of
    [calloc] in the first [internal_alloc], the snapshot of the
    collection, and the result of [calloc] in the second
    [internal_alloc].  The later two are read only when that call is
    made. *)
Record alloc_env : Type := AllocEnv {
  first_ret : Z;
  collect_env : snapshot;
  retry_ret : Z
}.

(** ** gc_init *)

Definition gc_init (P : platform) (st : gc_state) : outcome gc_state :=
  if gc_initialized st then Ok st
  else if bool_decide (region_kr P ≠ 0) then Exit 1
  else
    match data_segment P with
    | None => Undefined
    | Some (vmaddr, vmsize) =>
        Ok (GcState (mem st) (region_address P) (region_size P)
              (wrap64 (vmaddr + image_slide P)) vmsize
              ∅ (max_heap_size st) (current_allocated st)
              (verbose_logging st) (overwrite_reclaimed_blocks st)
              true (events st))
    end.

(** ** internal_alloc and gc_alloc *)

(** [calloc(nmemb, size)] answering [ret]: a non-null block is zeroed. *)
Definition calloc (nmemb size ret : Z) (st : gc_state) : gc_state :=
  emit (EvCalloc nmemb size ret)
    (if bool_decide (ret = 0) then st
     else set_mem (memset (mem st) ret x00 (nmemb * size)) st).

Definition cap_exceeded (st : gc_state) (size : Z) : bool :=
  bool_decide (0 < max_heap_size st)
  && bool_decide (max_heap_size st < wrap64 (current_allocated st + size)).

Definition internal_alloc (size ret : Z) (st : gc_state) : Z * gc_state :=
  if cap_exceeded st size
  then (0, emit (EvInternalAlloc size 0) st)
  else (ret, emit (EvInternalAlloc size ret) (calloc 1 size ret st)).

(** ** gc_collect *)

(** The mark phase: the register buffer, then the stack from the current
    stack pointer to the end of the stack region, then the data
    segment, all into one [marked] map that starts empty. *)
Definition mark (s : snapshot) (st : gc_state) : option (gmap Z Z) :=
  let fuel := mark_fuel (allocations st) in
  marked ← scan_words fuel (mem st) (allocations st) (register_buffer s) ∅;
  marked ← gc_collect_scan_block fuel (mem st) (allocations st)
             (curr_stack s)
             (wrap64 (stack_start st + stack_length st - curr_stack s))
             marked;
  gc_collect_scan_block fuel (mem st) (allocations st)
    (data_segment_start st) (data_segment_length st) marked.

(** One turn of the sweep loop over [*allocations]; the accumulator is
    the memory, the event log and [total_swept].  The [memset] is applied
    to the memory and recorded; the [free] is recorded, and the bytes of
    the block are the allocator's from then on. *)
Definition sweep_step (marked : gmap Z Z) (overwrite : bool)
    (acc : memory * list event * Z) (allocation : Z * Z)
    : memory * list event * Z :=
  match marked !! allocation.1 with
  | Some _ => acc
  | None =>
      let m := if overwrite
               then memset acc.1.1 allocation.1 xab allocation.2
               else acc.1.1 in
      let evs := if overwrite
                 then EvMemset allocation.1 xab allocation.2 :: acc.1.2
                 else acc.1.2 in
      (m, EvFree allocation.1 :: evs, wrap64 (acc.2 + allocation.2))
  end.

(** The sweep: the loop over the entries of [*allocations], then
    [current_allocated -= total_swept] and [allocations = marked].  The
    source leaves the order of the entries to the hash map; here it is
    that of [map_to_list], and no property below depends on it. *)
Definition sweep (marked : gmap Z Z) (st : gc_state) : gc_state :=
  let r := foldl (sweep_step marked (overwrite_reclaimed_blocks st))
             (mem st, events st, 0) (map_to_list (allocations st)) in
  set_heap marked (wrap64 (current_allocated st - r.2))
    (set_events r.1.2 (set_mem r.1.1 st)).

(** [gc_collect]: [gc_init], the [calloc] of the register buffer, whose
    result is handed to [get_registers] unchecked (a null buffer is
    stored through), the mark phase, the [free] of the buffer, the
    sweep. *)
Definition gc_collect (P : platform) (s : snapshot) (st : gc_state)
    : outcome gc_state :=
  st ← gc_init P st;
  let st := emit (EvCalloc 8 15 (scratch s)) (emit EvCollect st) in
  if bool_decide (scratch s = 0) then Undefined
  else
    match mark s st with
    | None => OutOfFuel
    | Some marked => Ok (sweep marked (emit (EvFree (scratch s)) st))
    end.

(** ** gc_alloc *)

(** The end of [gc_alloc]: [if (ptr) { ( *allocations)[ptr] = size;
    current_allocated += size; } return ptr;]. *)
Definition track (size : Z) (r : Z * gc_state) : Z * gc_state :=
  if bool_decide (r.1 = 0) then r
  else (r.1, set_heap (<[r.1 := size]> (allocations r.2))
               (wrap64 (current_allocated r.2 + size)) r.2).

Definition gc_alloc (P : platform) (size : Z) (e : alloc_env)
    (st : gc_state) : outcome (Z * gc_state) :=
  st ← gc_init P st;
  r ← (let r := internal_alloc size (first_ret e) st in
       if bool_decide (r.1 = 0)
       then st ← gc_collect P (collect_env e) r.2;
            mret (internal_alloc size (retry_ret e) st)
       else mret r);
  mret (track size r).

(** ** Debug controls *)

Definition gc_debug_set_max_heap (size : Z) (st : gc_state) : gc_state :=
  GcState (mem st) (stack_start st) (stack_length st) (data_segment_start st)
    (data_segment_length st) (allocations st) size
    (current_allocated st) (verbose_logging st)
    (overwrite_reclaimed_blocks st) (gc_initialized st) (events st).

Definition gc_debug_enable_verbose_logging (flag : bool) (st : gc_state)
    : gc_state :=
  GcState (mem st) (stack_start st) (stack_length st) (data_segment_start st)
    (data_segment_length st) (allocations st) (max_heap_size st)
    (current_allocated st) flag
    (overwrite_reclaimed_blocks st) (gc_initialized st) (events st).

Definition gc_debug_overwrite_reclaimed_blocks (flag : bool) (st : gc_state)
    : gc_state :=
  GcState (mem st) (stack_start st) (stack_length st) (data_segment_start st)
    (data_segment_length st) (allocations st) (max_heap_size st)
    (current_allocated st) (verbose_logging st)
    flag (gc_initialized st) (events st).

(** ** Reachability

    The blocks the mark phase is meant to find: the tracked blocks whose
    base address is a word of a root region or a word of a block found
    before.  The words of a block are those the scanner's loop reads
    ([region_words]). *)
Inductive reachable (m : memory) (A : gmap Z Z) (roots : list Z)
    : Z → Prop :=
| reachable_root v :
    v ∈ roots → is_Some (A !! v) → reachable m A roots v
| reachable_step a sz v :
    reachable m A roots a → A !! a = Some sz →
    v ∈ region_words m a sz → is_Some (A !! v) →
    reachable m A roots v.

(** The three root regions of one collection, as lists of words. *)
Definition root_words (s : snapshot) (st : gc_state) : list Z :=
  register_buffer s
  ++ region_words (mem st) (curr_stack s)
       (wrap64 (stack_start st + stack_length st - curr_stack s))
  ++ region_words (mem st) (data_segment_start st) (data_segment_length st).

(** ** The traversal as a relation

    [scanned m A ws M M']: scanning the words [ws] with mark set [M]
    ends with mark set [M'].  One rule per path through the loop body. *)
Inductive scanned (m : memory) (A : gmap Z Z)
    : list Z → gmap Z Z → gmap Z Z → Prop :=
| scanned_nil M : scanned m A [] M M
| scanned_skip v ws M M' :
    A !! v = None → scanned m A ws M M' → scanned m A (v :: ws) M M'
| scanned_visited v sz x ws M M' :
    A !! v = Some sz → M !! v = Some x →
    scanned m A ws M M' → scanned m A (v :: ws) M M'
| scanned_enter v sz ws M M1 M' :
    A !! v = Some sz → M !! v = None →
    scanned m A (region_words m v sz) (<[v:=sz]> M) M1 →
    scanned m A ws M1 M' → scanned m A (v :: ws) M M'.


(** ** Reading the event log *)

Definition is_collect (ev : event) : bool :=
  match ev with EvCollect => true | _ => false end.

Definition is_internal_alloc (ev : event) : bool :=
  match ev with EvInternalAlloc _ _ => true | _ => false end.

Definition is_calloc_of (size : Z) (ev : event) : bool :=
  match ev with EvCalloc 1 sz _ => bool_decide (sz = size) | _ => false end.

(** How many events of a kind the log holds. *)
Definition count (f : event → bool) (evs : list event) : nat :=
  length (List.filter f evs).

(** ** Totals and the sweep, described *)

Definition sizes_sum (l : list (Z * Z)) : Z :=
  foldr (λ e acc, e.2 + acc) 0 l.

(** The bytes a heap map tracks. *)
Definition total_size (A : gmap Z Z) : Z := sizes_sum (map_to_list A).

(** ** The underlying allocator

    What [calloc] promises about a block it hands out: it is not null,
    lies in the address space, is not a block that is still live, and
    does not overlap one.  The blocks of [allocations] are exactly the
    blocks handed out and not yet passed to [free]. *)
Definition calloc_ok (A : gmap Z Z) (size ret : Z) : Prop :=
  ret = 0 ∨
  (0 < ret ∧ ret + size ≤ 2 ^ 64 ∧ A !! ret = None ∧
   ∀ a s, A !! a = Some s → ret + size ≤ a ∨ a + s ≤ ret).

Definition blocks_apart (A : gmap Z Z) : Prop :=
  ∀ a1 s1 a2 s2, A !! a1 = Some s1 → A !! a2 = Some s2 → a1 ≠ a2 →
    a1 + s1 ≤ a2 ∨ a2 + s2 ≤ a1.

Definition blocks_in_range (A : gmap Z Z) : Prop :=
  ∀ a s, A !! a = Some s → 0 < a ∧ 0 ≤ s ∧ a + s ≤ 2 ^ 64.

(** The invariant of the collector state: the table holds disjoint
    blocks of the address space, [current_allocated] is the sum of
    their sizes, and nothing is tracked before [gc_init] has run. *)
Record heap_wf (st : gc_state) : Prop := HeapWf {
  wf_apart : blocks_apart (allocations st);
  wf_in_range : blocks_in_range (allocations st);
  wf_total : current_allocated st = total_size (allocations st);
  wf_uninitialized : gc_initialized st = false → allocations st = ∅
}.

(** What the environment of one [gc_alloc] has to satisfy, [st0] being
    the state after [gc_init]: each result of [calloc] keeps the
    allocator's promise for the table it is asked in, and the register
    buffer of the collection, if one runs, is allocated. *)
Definition alloc_env_ok (P : platform) (size : Z) (e : alloc_env)
    (st0 : gc_state) : Prop :=
  calloc_ok (allocations st0) size (first_ret e) ∧
  ((internal_alloc size (first_ret e) st0).1 = 0 →
   scratch (collect_env e) ≠ 0 ∧
   ∀ st2,
     gc_collect P (collect_env e) (internal_alloc size (first_ret e) st0).2
     = Ok st2 →
     calloc_ok (allocations st2) size (retry_ret e)).

(** ** Executions

    One step of a program that uses the collector without changing the
    cap: a call of [gc_alloc] or [gc_collect] that returns, a store of
    the program into its memory, or a change of one of the two debug
    flags. *)
Inductive step (P : platform) : gc_state → gc_state → Prop :=
| step_alloc size e st st0 p st' :
    0 ≤ size < 2 ^ 64 →
    gc_init P st = Ok st0 → alloc_env_ok P size e st0 →
    gc_alloc P size e st = Ok (p, st') →
    step P st st'
| step_collect s st st' :
    gc_collect P s st = Ok st' → step P st st'
| step_store m st :
    step P st (set_mem m st)
| step_verbose flag st :
    step P st (gc_debug_enable_verbose_logging flag st)
| step_overwrite flag st :
    step P st (gc_debug_overwrite_reclaimed_blocks flag st).

(** ** A small process

    The linked-list test of main.cpp in miniature, used for the
    concrete checks below.  The stack region is [[4096, 4352)], the data
    segment [[8192, 8208)].  Three blocks are tracked: the global at 8192
    points to the block at 10000, whose second word points to the block
    at 10016; nothing points to the block at 10032.  The cap is 32 bytes
    and all 32 are in use. *)
Definition demo_platform : platform :=
  Platform 0 4096 256 (Some (8192, 16)) 0.

Definition demo_heap : gmap Z Z :=
  {[ 10000 := 16; 10016 := 8; 10032 := 8 ]}.

Definition demo_memory : memory :=
  store64 (store64 (λ _, x00) 8192 10000) 10008 10016.

Definition demo_state : gc_state :=
  {| mem := demo_memory; stack_start := 4096; stack_length := 256;
     data_segment_start := 8192; data_segment_length := 16;
     allocations := demo_heap; max_heap_size := 32; current_allocated := 32;
     verbose_logging := false; overwrite_reclaimed_blocks := true;
     gc_initialized := true; events := [] |}.

(** The registers hold no pointer; the stack pointer is 32 bytes below
    the end of the stack region; the register buffer is at 20000. *)
Definition demo_snapshot : snapshot := Snapshot 20000 [] 4320.

(** A request whose first [calloc] would answer 10048 and whose second
    answers 10032, the block the collection has just freed. *)
Definition demo_env : alloc_env := AllocEnv 10048 demo_snapshot 10032.

(** The same process at its start, with the cap of 32 bytes set and
    nothing allocated; the state after the first [gc_init]; a first
    request, which [calloc] answers with the block at 10000; the state
    that request leaves when 8 bytes are asked for. *)
Definition demo_start : gc_state :=
  gc_debug_set_max_heap 32 (initial_state (λ _, x00)).

Definition demo_started : gc_state :=
  match gc_init demo_platform demo_start with
  | Ok st => st
  | _ => demo_start
  end.

Definition demo_first_env : alloc_env := AllocEnv 10000 demo_snapshot 0.

Definition demo_after_first : gc_state :=
  match gc_alloc demo_platform 8 demo_first_env demo_start with
  | Ok r => r.2
  | _ => demo_start
  end.

(** [testLinkList] of main.cpp, run from the start of the process with
    the settings of its [main]: the tracked blocks after the collection,
    the word in the head node and the first byte of the second node. *)
Definition test_link_list : outcome (list (Z * Z) * Z * byte) :=
  let st := gc_debug_set_max_heap (8 * 1024 * 1024)
              (gc_debug_overwrite_reclaimed_blocks true
                 (initial_state (λ _, x00))) in
  r ← gc_alloc demo_platform 8 (AllocEnv 10000 demo_snapshot 0) st;
  let head := r.1 in
  r ← gc_alloc demo_platform 8 (AllocEnv 10016 demo_snapshot 0) r.2;
  let st := set_mem (store64 (mem r.2) head r.1) r.2 in
  st ← gc_collect demo_platform (Snapshot 20000 [head] 4320) st;
  mret (map_to_list (allocations st), load64 (mem st) head, mem st r.1).

(** ** More of the code *)

(** [get_registers]: slot [i] of the buffer receives register [i], for
    the 14 registers rax, rbx, rcx, rdx, rsi, rdi, r8 ... r15; the buffer
    has 15 slots and the last is not written. *)
Definition get_registers (regs buffer : list Z) : list Z :=
  foldl (λ b i, <[i := default 0 (regs !! i)]> b) buffer (seq 0 14).

(** The addresses a collection passes to [free], oldest last. *)
Definition freed (evs : list event) : list Z :=
  omap (λ ev, match ev with EvFree a => Some a | _ => None end) evs.

(** The macros of main.cpp that hide a pointer from the collector and
    bring it back: [(uint64_t)p + 1] and [(uint64_t)p - 1]. *)
Definition SCRAMBLE (p : Z) : Z := wrap64 (p + 1).
Definition UNSCRAMBLE (p : Z) : Z := wrap64 (p - 1).

(** The small process with the overwrite flag off, and the state its
    collection leaves. *)
Definition demo_quiet : gc_state :=
  gc_debug_overwrite_reclaimed_blocks false demo_state.

Definition demo_quiet_collected : gc_state :=
  match gc_collect demo_platform demo_snapshot demo_quiet with
  | Ok st => st
  | _ => demo_quiet
  end.

(** The roots of a state are those the platform reports: the stack
    region as [mach_vm_region] gave it, the data segment at its link
    address plus the slide of the image. *)
Definition roots_from (P : platform) (st : gc_state) : Prop :=
  region_kr P = 0 ∧
  ∃ vmaddr vmsize,
    data_segment P = Some (vmaddr, vmsize) ∧
    stack_start st = region_address P ∧
    stack_length st = region_size P ∧
    data_segment_start st = wrap64 (vmaddr + image_slide P) ∧
    data_segment_length st = vmsize.

(** ** The blocks in use, read off the registers and the memory

    What a collection has to keep, said without the scanner: the words
    are read with [load64] at the addresses themselves.
    [word_of m start length v]: the 64-bit word [v] is stored at one of
    the addresses [start], [start + 8], [start + 16], ... that lie below
    [start + length], the sum being taken in 64 bits. *)
Definition word_of (m : memory) (start length v : Z) : Prop :=
  ∃ i : nat,
    start + 8 * Z.of_nat i < wrap64 (start + length) ∧
    load64 m (start + 8 * Z.of_nat i) = v.

(** A root word: the value of one of the 14 registers (zero if the
    snapshot has no value for it), the zero in the last slot of the
    register buffer, a word of the stack from the stack pointer to the
    end of the stack region, or a word of the data segment. *)
Definition root_word (s : snapshot) (st : gc_state) (v : Z) : Prop :=
  (∃ i : nat, (i < 14)%nat ∧ v = default 0 (registers s !! i)) ∨
  v = 0 ∨
  word_of (mem st) (curr_stack s)
    (wrap64 (stack_start st + stack_length st - curr_stack s)) v ∨
  word_of (mem st) (data_segment_start st) (data_segment_length st) v.

(** A tracked block is in use when its base address is a root word, or
    a word stored in a block in use. *)
Inductive live (s : snapshot) (st : gc_state) : Z → Prop :=
| live_root v :
    root_word s st v → is_Some (allocations st !! v) → live s st v
| live_step a sz v :
    live s st a → allocations st !! a = Some sz →
    word_of (mem st) a sz v → is_Some (allocations st !! v) →
    live s st v.

(** ** Executions under a cap

    One step of a program while a nonzero cap is configured: a step of
    [step], or a call of [gc_debug_set_max_heap] that configures another
    nonzero cap, one the running total is within ([gc_debug_set_max_heap]
    only stores its argument, it reclaims nothing).  [run_step] is a step
    of any program: a step of [step] or a call of [gc_debug_set_max_heap]
    with any argument. *)
Inductive capped_step (P : platform) : gc_state → gc_state → Prop :=
| capped_op st st' :
    step P st st' → capped_step P st st'
| capped_set_max_heap size st :
    0 < size → current_allocated st ≤ size →
    capped_step P st (gc_debug_set_max_heap size st).

Inductive run_step (P : platform) : gc_state → gc_state → Prop :=
| run_op st st' :
    step P st st' → run_step P st st'
| run_set_max_heap size st :
    run_step P st (gc_debug_set_max_heap size st).

(** The small process after the request of [demo_env], which the cap
    rejects at first and the collection makes room for. *)
Definition demo_after_alloc : gc_state :=
  match gc_alloc demo_platform 8 demo_env demo_state with
  | Ok r => r.2
  | _ => demo_state
  end.

(** The small process without a cap, when the allocator has nothing
    left: [calloc] answers null to the request and to the collection. *)
Definition demo_uncapped : gc_state := gc_debug_set_max_heap 0 demo_state.

Definition demo_exhausted : alloc_env := AllocEnv 0 (Snapshot 0 [] 4320) 0.
(** * Properties *)

(** From [H : Ok (p, f x) = Ok (p', st')], make [st'] the state computed. *)
Ltac returned H :=
  injection H as H; apply (f_equal snd) in H; simpl in H; subst.

(** Close [f x = Ok (?p, ?st')] once [f x] is known to be [Ok (track ...)]. *)
Ltac as_pair := rewrite (surjective_pairing (track _ _)); reflexivity.

(** ** Machine arithmetic *)

Lemma wrap64_add_l a b : wrap64 (wrap64 a + b) = wrap64 (a + b).
Proof. unfold wrap64. by rewrite Zplus_mod_idemp_l. Qed.

Lemma wrap64_small z : 0 ≤ z < 2 ^ 64 → wrap64 z = z.
Proof. unfold wrap64. intros. by apply Z.mod_small. Qed.

(** ** Regions *)

(** The addresses the scanner reads in a region: [start], [start + 8],
    ... as long as they are below the end of the region. *)
Lemma region_addrs_spec start length p :
  p ∈ region_addrs start length ↔
  ∃ i : nat, p = start + 8 * Z.of_nat i ∧ p < region_end start length.
Proof.
  unfold region_addrs, word_count.
  rewrite list_elem_of_fmap. setoid_rewrite elem_of_seq.
  pose proof (Z.div_mod (region_end start length - start + 7) 8) as Hdm.
  pose proof (Z.mod_pos_bound (region_end start length - start + 7) 8) as Hm.
  split.
  - intros (i & -> & _ & Hi). exists i. split; [done|]. lia.
  - intros (i & -> & Hi). exists i. split; [done|]. lia.
Qed.

(** A block that lies in the address space is read whole: each of its
    bytes is in one of the words read.  When its size is not a multiple
    of 8 the last word read ends up to 7 bytes after the block. *)
Lemma region_addrs_cover start length x :
  0 ≤ start → 0 ≤ length → start + length < 2 ^ 64 →
  start ≤ x < start + length →
  ∃ p, p ∈ region_addrs start length ∧ p ≤ x < p + 8.
Proof.
  intros Hs Hl Hfit Hx.
  exists (start + 8 * Z.of_nat (Z.to_nat ((x - start) / 8))).
  pose proof (Z.div_mod (x - start) 8) as Hdm.
  pose proof (Z.mod_pos_bound (x - start) 8) as Hm.
  assert (0 ≤ (x - start) / 8) by (apply Z.div_pos; lia).
  split.
  - apply region_addrs_spec. eexists. split; [done|].
    unfold region_end. rewrite wrap64_small by lia. lia.
  - lia.
Qed.

(** ** The mark traversal *)

Section traversal.

(** The memory and the allocation table do not change during a mark
    phase. *)
Context (m : memory) (A : gmap Z Z).

Lemma scan_words_nil fuel M : scan_words (S fuel) m A [] M = Some M.
Proof. reflexivity. Qed.

Lemma scan_words_cons fuel v ws M :
  scan_words (S fuel) m A (v :: ws) M =
  match A !! v with
  | Some sz =>
      match M !! v with
      | None =>
          match scan_words fuel m A (region_words m v sz) (<[v:=sz]> M) with
          | Some M1 => scan_words (S fuel) m A ws M1
          | None => None
          end
      | Some _ => scan_words (S fuel) m A ws M
      end
  | None => scan_words (S fuel) m A ws M
  end.
Proof. reflexivity. Qed.

Lemma scan_words_scanned fuel :
  ∀ ws M M', scan_words fuel m A ws M = Some M' → scanned m A ws M M'.
Proof.
  induction fuel as [|fuel IHfuel]; [discriminate|].
  induction ws as [|v ws IHws]; intros M M'.
  - rewrite scan_words_nil. intros [= <-]. constructor.
  - rewrite scan_words_cons.
    destruct (A !! v) as [sz|] eqn:HA.
    + destruct (M !! v) as [x|] eqn:HM.
      * intros H. eapply scanned_visited; eauto.
      * destruct (scan_words fuel m A (region_words m v sz) (<[v:=sz]> M))
          as [M1|] eqn:Hrec; [|discriminate].
        intros H. eapply scanned_enter; eauto.
    + intros H. apply scanned_skip; auto.
Qed.

(** The mark set only grows. *)
Lemma scanned_mono ws M M' : scanned m A ws M M' → M ⊆ M'.
Proof.
  induction 1 as [M|v ws M M' _ _ IH|v sz x ws M M' _ _ _ IH
                 |v sz ws M M1 M' _ HM _ IH1 _ IH2]; auto.
  transitivity M1; [|done].
  transitivity (<[v:=sz]> M); [|done].
  by apply insert_subseteq.
Qed.

(** Every entry of the mark set is a copy of an entry of the table. *)
Lemma scanned_copies ws M M' :
  scanned m A ws M M' → M ⊆ A → M' ⊆ A.
Proof.
  induction 1 as [M|v ws M M' _ _ IH|v sz x ws M M' _ _ _ IH
                 |v sz ws M M1 M' HA HM _ IH1 _ IH2]; auto.
  intros HMA. apply IH2, IH1. by apply insert_subseteq_l.
Qed.

(** *** Termination *)

Lemma unmarked_insert_lt (M : gmap Z Z) v sz :
  A !! v = Some sz → M !! v = None →
  (size (A ∖ <[v:=sz]> M) < size (A ∖ M))%nat.
Proof.
  intros HA HM. apply map_subset_size, map_subset_alt. split.
  - apply map_subseteq_spec. intros i x.
    rewrite !lookup_difference_Some. intros [Hi Hn]. split; [done|].
    destruct (decide (v = i)) as [->|Hne].
    + by rewrite lookup_insert_eq in Hn.
    + by rewrite lookup_insert_ne in Hn.
  - exists v. split.
    + apply lookup_difference_None. right. rewrite lookup_insert_eq. eauto.
    + apply lookup_difference_is_Some. eauto.
Qed.

Lemma unmarked_mono (M M' : gmap Z Z) :
  M ⊆ M' → (size (A ∖ M') ≤ size (A ∖ M))%nat.
Proof.
  intros Hsub. apply map_subseteq_size, map_subseteq_spec. intros i x.
  rewrite !lookup_difference_Some. intros [Hi Hn]. split; [done|].
  destruct (M !! i) as [y|] eqn:HMi; [|done].
  by rewrite (lookup_weaken _ _ _ _ HMi Hsub) in Hn.
Qed.

(** The recursion depth is bounded by the number of unmarked blocks:
    each recursive call is made right after one more block is marked. *)
Lemma scan_words_enough_fuel fuel :
  ∀ ws M, (size (A ∖ M) < fuel)%nat → is_Some (scan_words fuel m A ws M).
Proof.
  induction fuel as [|fuel IHfuel]; [lia|].
  induction ws as [|v ws IHws]; intros M Hfuel.
  - rewrite scan_words_nil. eauto.
  - rewrite scan_words_cons.
    destruct (A !! v) as [sz|] eqn:HA; [|by apply IHws].
    destruct (M !! v) as [x|] eqn:HM; [by apply IHws|].
    pose proof (unmarked_insert_lt M v sz HA HM) as Hlt.
    destruct (IHfuel (region_words m v sz) (<[v:=sz]> M)) as [M1 HM1]; [lia|].
    rewrite HM1. apply IHws.
    apply scan_words_scanned, scanned_mono in HM1.
    pose proof (unmarked_mono _ _ HM1). lia.
Qed.

Lemma unmarked_le_size (M : gmap Z Z) : (size (A ∖ M) ≤ size A)%nat.
Proof.
  apply map_subseteq_size, map_subseteq_spec. intros i x.
  rewrite lookup_difference_Some. tauto.
Qed.

Lemma scan_words_mark_fuel ws M :
  is_Some (scan_words (mark_fuel A) m A ws M).
Proof.
  apply scan_words_enough_fuel. unfold mark_fuel.
  pose proof (unmarked_le_size M). lia.
Qed.

(** Fuel only bounds the depth: more of it does not change a result. *)
Lemma scan_words_more_fuel fuel :
  ∀ fuel' ws M M', (fuel ≤ fuel')%nat →
    scan_words fuel m A ws M = Some M' →
    scan_words fuel' m A ws M = Some M'.
Proof.
  induction fuel as [|fuel IHfuel]; [discriminate|].
  intros [|fuel'] ws; [lia|].
  induction ws as [|v ws IHws]; intros M M' Hle; [done|].
  rewrite !scan_words_cons.
  destruct (A !! v) as [sz|]; [|by apply IHws].
  destruct (M !! v) as [x|]; [by apply IHws|].
  destruct (scan_words fuel m A (region_words m v sz) (<[v:=sz]> M))
    as [M1|] eqn:Hrec; [|discriminate].
  rewrite (IHfuel fuel' _ _ _ ltac:(lia) Hrec). by apply IHws.
Qed.

(** *** The mark set is the set of reachable blocks *)

Lemma reachable_weaken roots roots' k :
  (∀ v, v ∈ roots → v ∈ roots') →
  reachable m A roots k → reachable m A roots' k.
Proof.
  intros Hsub. induction 1 as [v Hv HA|a sz v _ IH Ha Hv HA].
  - apply reachable_root; auto.
  - eapply reachable_step; eauto.
Qed.

Lemma reachable_trans roots a sz k :
  reachable m A roots a → A !! a = Some sz →
  reachable m A (region_words m a sz) k → reachable m A roots k.
Proof.
  intros Hra Ha. induction 1 as [v Hv HA|b szb v _ IH Hb Hv HA].
  - eapply reachable_step; eauto.
  - eapply reachable_step; eauto.
Qed.

Lemma scanned_app ws1 ws2 M M1 M2 :
  scanned m A ws1 M M1 → scanned m A ws2 M1 M2 →
  scanned m A (ws1 ++ ws2) M M2.
Proof.
  induction 1; intros Hrest; simpl; eauto using scanned.
Qed.

(** Soundness: what the scan adds is reachable from the words scanned. *)
Lemma scanned_sound ws M M' :
  scanned m A ws M M' →
  ∀ k, is_Some (M' !! k) → is_Some (M !! k) ∨ reachable m A ws k.
Proof.
  induction 1 as [M|v ws M M' _ _ IH|v sz x ws M M' _ _ _ IH
                 |v sz ws M M1 M' HA HM _ IH1 _ IH2]; intros k Hk.
  - by left.
  - destruct (IH k Hk) as [?|Hr]; [by left|right].
    eapply reachable_weaken; [|exact Hr]. intros; by apply list_elem_of_further.
  - destruct (IH k Hk) as [?|Hr]; [by left|right].
    eapply reachable_weaken; [|exact Hr]. intros; by apply list_elem_of_further.
  - assert (reachable m A (v :: ws) v) as Hv.
    { apply reachable_root; [apply list_elem_of_here|eauto]. }
    destruct (IH2 k Hk) as [Hk1|Hr].
    + destruct (IH1 k Hk1) as [Hk0|Hr].
      * destruct (decide (v = k)) as [<-|Hne]; [by right|].
        left. by rewrite lookup_insert_ne in Hk0.
      * right. eapply reachable_trans; eauto.
    + right. eapply reachable_weaken; [|exact Hr].
      intros; by apply list_elem_of_further.
Qed.

(** Completeness: every tracked word scanned is marked, and every block
    marked during the scan has all its tracked words marked. *)
Lemma scanned_complete ws M M' :
  scanned m A ws M M' →
  (∀ v, v ∈ ws → is_Some (A !! v) → is_Some (M' !! v)) ∧
  (∀ a sz, is_Some (M' !! a) → M !! a = None → A !! a = Some sz →
     ∀ v, v ∈ region_words m a sz → is_Some (A !! v) → is_Some (M' !! v)).
Proof.
  induction 1 as [M|v ws M M' HA _ [IHa IHb]|v sz x ws M M' HA HM Hs [IHa IHb]
                 |v sz ws M M1 M' HA HM Hs1 [IH1a IH1b] Hs2 [IH2a IH2b]].
  - split.
    + intros v Hv. by apply elem_of_nil in Hv.
    + intros a sz [y Hy] Hn. congruence.
  - split; [|done].
    intros v' [->|Hv']%elem_of_cons [y Hy]; [congruence|eauto].
  - split; [|done].
    intros v' [->|Hv']%elem_of_cons Hy; [|eauto].
    apply (lookup_weaken_is_Some M); [by eexists|by eapply scanned_mono].
  - pose proof (scanned_mono _ _ _ Hs1) as Hm1.
    pose proof (scanned_mono _ _ _ Hs2) as Hm2.
    split.
    + intros v' [->|Hv']%elem_of_cons Hy; [|eauto].
      eapply lookup_weaken_is_Some; [|exact Hm2].
      eapply lookup_weaken_is_Some; [|exact Hm1].
      rewrite lookup_insert_eq. eauto.
    + intros a sza Ha Hn HAa w Hw HAw.
      destruct (M1 !! a) as [y|] eqn:H1a; [|eauto].
      eapply lookup_weaken_is_Some; [|exact Hm2].
      destruct (decide (v = a)) as [<-|Hne].
      * assert (sza = sz) as -> by congruence. auto.
      * eapply IH1b; eauto. by rewrite lookup_insert_ne.
Qed.

Lemma scanned_from_empty ws M' :
  scanned m A ws ∅ M' →
  ∀ k sz, M' !! k = Some sz ↔ A !! k = Some sz ∧ reachable m A ws k.
Proof.
  intros Hs k sz.
  pose proof (scanned_copies _ _ _ Hs (map_empty_subseteq A)) as Hsub.
  destruct (scanned_complete _ _ _ Hs) as [Hroots Hclosed].
  split.
  - intros Hk. split; [by eapply lookup_weaken|].
    assert (is_Some (M' !! k)) as Hk' by eauto.
    destruct (scanned_sound _ _ _ Hs k Hk') as [[y Hy]|Hr]; [|done].
    by rewrite lookup_empty in Hy.
  - intros [HA Hr].
    assert (is_Some (M' !! k)) as [y Hy].
    { clear HA. induction Hr as [v Hv Hv'|a sza v _ IH Ha Hv Hv']; [auto|].
      eapply Hclosed; eauto. }
    rewrite Hy. f_equal.
    pose proof (lookup_weaken _ _ _ _ Hy Hsub). congruence.
Qed.

End traversal.

Lemma mark_scanned s st marked :
  mark s st = Some marked →
  scanned (mem st) (allocations st) (root_words s st) ∅ marked.
Proof.
  unfold mark, gc_collect_scan_block, root_words. intros H.
  apply bind_Some in H as (M1 & H1 & H).
  apply bind_Some in H as (M2 & H2 & H).
  apply scan_words_scanned in H1, H2, H.
  eauto using scanned_app.
Qed.

Lemma mark_total s st : is_Some (mark s st).
Proof.
  unfold mark, gc_collect_scan_block.
  destruct (scan_words_mark_fuel (mem st) (allocations st)
              (register_buffer s) ∅) as [M1 H1].
  destruct (scan_words_mark_fuel (mem st) (allocations st)
              (region_words (mem st) (curr_stack s)
                 (wrap64 (stack_start st + stack_length st - curr_stack s)))
              M1) as [M2 H2].
  destruct (scan_words_mark_fuel (mem st) (allocations st)
              (region_words (mem st) (data_segment_start st)
                 (data_segment_length st))
              M2) as [M3 H3].
  exists M3. apply bind_Some. exists M1. split; [done|].
  apply bind_Some. exists M2. split; done.
Qed.

(** The words the scanner reads in a region are the words stored at
    [start + 8 i] below the end of the region, all of them and no
    other. *)
Lemma region_words_word_of m start length v :
  v ∈ region_words m start length ↔ word_of m start length v.
Proof.
  unfold region_words, word_of. rewrite list_elem_of_fmap. split.
  - intros (p & -> & Hp). apply region_addrs_spec in Hp as (i & -> & Hi).
    by exists i.
  - intros (i & Hi & <-). eexists. split; [done|].
    apply region_addrs_spec. by exists i.
Qed.

(** Every byte of a region that lies in the address space is in one of
    these words. *)
Lemma word_of_covers m start length x :
  0 ≤ start → 0 ≤ length → start + length < 2 ^ 64 →
  start ≤ x < start + length →
  ∃ i : nat,
    start + 8 * Z.of_nat i ≤ x < start + 8 * Z.of_nat i + 8 ∧
    word_of m start length (load64 m (start + 8 * Z.of_nat i)).
Proof.
  intros Hs Hl Hfit Hx.
  destruct (region_addrs_cover start length x Hs Hl Hfit Hx) as (p & Hp & Hpx).
  apply region_addrs_spec in Hp as (i & -> & Hi).
  exists i. split; [done|]. by exists i.
Qed.

(** Slot [i] of the register buffer, for [i < 14]. *)
Lemma register_slot s (i : nat) :
  (i < 14)%nat →
  resize 14 0 (registers s) !! i = Some (default 0 (registers s !! i)).
Proof.
  intros Hi. destruct (decide (i < length (registers s))%nat) as [Hlt|Hge].
  - rewrite lookup_resize by done.
    by destruct (lookup_lt_is_Some_2 _ _ Hlt) as [x ->].
  - rewrite lookup_resize_new by lia. by rewrite lookup_ge_None_2 by lia.
Qed.

Lemma register_buffer_word s v :
  v ∈ register_buffer s ↔
  (∃ i : nat, (i < 14)%nat ∧ v = default 0 (registers s !! i)) ∨ v = 0.
Proof.
  unfold register_buffer. rewrite elem_of_app, list_elem_of_singleton. split.
  - intros [Hin| ->]; [left|by right].
    apply list_elem_of_lookup in Hin as [i Hi].
    assert (i < 14)%nat as Hlt.
    { apply lookup_lt_Some in Hi. by rewrite length_resize in Hi. }
    exists i. split; [done|]. rewrite register_slot in Hi by done. congruence.
  - intros [(i & Hi & ->)| ->]; [left|by right].
    eapply list_elem_of_lookup_2. by apply register_slot.
Qed.

Lemma root_words_root_word s st v : v ∈ root_words s st ↔ root_word s st v.
Proof.
  unfold root_words, root_word.
  rewrite !elem_of_app, !region_words_word_of, register_buffer_word. tauto.
Qed.

(** The blocks the traversal can reach through the scanner's word lists
    are the blocks in use. *)
Lemma reachable_live s st k :
  reachable (mem st) (allocations st) (root_words s st) k ↔ live s st k.
Proof.
  split.
  - induction 1 as [v Hv HA|a sz v _ IH Ha Hv HA].
    + apply live_root; [by apply root_words_root_word|done].
    + eapply live_step; [exact IH|exact Ha| |done].
      by apply region_words_word_of.
  - induction 1 as [v Hv HA|a sz v _ IH Ha Hv HA].
    + apply reachable_root; [by apply root_words_root_word|done].
    + eapply reachable_step; [exact IH|exact Ha| |done].
      by apply region_words_word_of.
Qed.

(** C1. The mark phase of a collection returns, and the mark set it
    builds holds exactly the tracked blocks in use, each with the size
    the allocation table records: the blocks whose base address is the
    value of one of the 14 registers, a word stored on the stack at
    [rsp + 8 i] below the end of the stack region or a word stored in
    the data segment at [start + 8 i] below its end, and the blocks
    whose base address is a word stored at [a + 8 i] below the end of a
    block [a] in use. *)
Theorem mark_is_reachable (s : snapshot) (st : gc_state) :
  ∃ marked, mark s st = Some marked ∧
    ∀ k sz, marked !! k = Some sz ↔
      allocations st !! k = Some sz ∧ live s st k.
Proof.
  destruct (mark_total s st) as [marked Hm]. exists marked. split; [done|].
  intros k sz. rewrite <- reachable_live.
  by apply scanned_from_empty, mark_scanned.
Qed.

(** C8. The recursive traversal of a region returns for every allocation
    table, memory and mark set: a recursive call is made only for a
    block that was not in the mark set and has just been put there, so
    the depth never exceeds the number of tracked blocks.  One level of
    fuel per tracked block and one for the outermost call is enough, and
    any larger amount gives the same mark set. *)
Theorem scan_block_terminates (m : memory) (A : gmap Z Z)
    (start length : Z) (marked : gmap Z Z) :
  ∃ marked',
    gc_collect_scan_block (S (size A)) m A start length marked
    = Some marked' ∧
    ∀ extra : nat,
      gc_collect_scan_block (S (size A) + extra) m A start length marked
      = Some marked'.
Proof.
  unfold gc_collect_scan_block.
  destruct (scan_words_enough_fuel m A (S (size A))
              (region_words m start length) marked) as [marked' Hm].
  { pose proof (unmarked_le_size A marked). lia. }
  exists marked'. split; [done|]. intros extra.
  eapply scan_words_more_fuel; [|exact Hm]. lia.
Qed.

(** ** Initialization *)

Lemma gc_init_initialized P st :
  gc_initialized st = true → gc_init P st = Ok st.
Proof. unfold gc_init. by intros ->. Qed.

Lemma gc_init_Ok P st st0 :
  gc_init P st = Ok st0 →
  gc_initialized st0 = true ∧ mem st0 = mem st ∧ events st0 = events st ∧
  max_heap_size st0 = max_heap_size st ∧
  current_allocated st0 = current_allocated st ∧
  overwrite_reclaimed_blocks st0 = overwrite_reclaimed_blocks st ∧
  (gc_initialized st = true → st0 = st) ∧
  (gc_initialized st = false → allocations st0 = ∅).
Proof.
  unfold gc_init. destruct (gc_initialized st) eqn:Hi.
  - intros [= <-]. by repeat split.
  - case_bool_decide; [discriminate|].
    destruct (data_segment P) as [[vmaddr vmsize]|]; [|discriminate].
    intros [= <-]. by repeat split.
Qed.

Lemma gc_init_stack_failure P st :
  gc_initialized st = false → region_kr P ≠ 0 → gc_init P st = Exit 1.
Proof.
  unfold gc_init. intros -> Hkr. by rewrite bool_decide_eq_true_2.
Qed.

Lemma gc_init_data_failure P st :
  gc_initialized st = false → region_kr P = 0 → data_segment P = None →
  gc_init P st = Undefined.
Proof.
  unfold gc_init. intros -> Hkr ->.
  by rewrite bool_decide_eq_false_2 by (by intros ?).
Qed.

(** C9. When the stack region or the data segment cannot be found, the
    first initialization ends the process and never returns a state:
    [exit(1)] when [mach_vm_region] fails, the fault of the read of
    [dataSeg->vmaddr] through the null pointer when [getsegbyname] finds
    nothing.  So do [gc_alloc] and [gc_collect], which start with
    [gc_init]: no allocation and no collection runs with a root region
    missing. *)
Theorem gc_init_failure_ends_process (P : platform) (st : gc_state) :
  gc_initialized st = false →
  region_kr P ≠ 0 ∨ data_segment P = None →
  gc_init P st
  = (if bool_decide (region_kr P ≠ 0) then Exit 1 else Undefined) ∧
  ends_process (gc_init P st) = true ∧
  (∀ st0, gc_init P st ≠ Ok st0) ∧
  (∀ size e, ends_process (gc_alloc P size e st) = true) ∧
  (∀ s, ends_process (gc_collect P s st) = true).
Proof.
  intros Hi Hfail.
  assert (gc_init P st
          = (if bool_decide (region_kr P ≠ 0) then Exit 1 else Undefined))
    as Hend.
  { case_bool_decide as Hkr.
    - by apply gc_init_stack_failure.
    - destruct Hfail as [?|Hdata]; [done|].
      apply gc_init_data_failure; [done| |done].
      by destruct (decide (region_kr P = 0)). }
  unfold gc_alloc, gc_collect. rewrite Hend.
  by case_bool_decide.
Qed.

Lemma gc_init_failure_ends_process_witness :
  gc_init (Platform 0 4096 4096 None 0) (initial_state (λ _, x00))
  = (if bool_decide (region_kr (Platform 0 4096 4096 None 0) ≠ 0)
     then Exit 1 else Undefined) ∧
  ends_process (gc_init (Platform 0 4096 4096 None 0)
                  (initial_state (λ _, x00))) = true ∧
  (∀ st0, gc_init (Platform 0 4096 4096 None 0) (initial_state (λ _, x00))
          ≠ Ok st0) ∧
  (∀ size e,
     ends_process (gc_alloc (Platform 0 4096 4096 None 0) size e
                     (initial_state (λ _, x00))) = true) ∧
  (∀ s,
     ends_process (gc_collect (Platform 0 4096 4096 None 0) s
                     (initial_state (λ _, x00))) = true).
Proof.
  apply (gc_init_failure_ends_process (Platform 0 4096 4096 None 0)
           (initial_state (λ _, x00))).
  - reflexivity.
  - right. reflexivity.
Defined.

(** ** internal_alloc *)

Lemma internal_alloc_denied size ret st :
  cap_exceeded st size = true →
  internal_alloc size ret st = (0, emit (EvInternalAlloc size 0) st).
Proof. unfold internal_alloc. by intros ->. Qed.

Lemma internal_alloc_passed size ret st :
  cap_exceeded st size = false →
  internal_alloc size ret st
  = (ret, emit (EvInternalAlloc size ret) (calloc 1 size ret st)).
Proof. unfold internal_alloc. by intros ->. Qed.

Lemma internal_alloc_heap size ret st :
  allocations (internal_alloc size ret st).2 = allocations st ∧
  current_allocated (internal_alloc size ret st).2 = current_allocated st ∧
  max_heap_size (internal_alloc size ret st).2 = max_heap_size st ∧
  gc_initialized (internal_alloc size ret st).2 = gc_initialized st ∧
  overwrite_reclaimed_blocks (internal_alloc size ret st).2
  = overwrite_reclaimed_blocks st.
Proof.
  unfold internal_alloc, calloc.
  destruct (cap_exceeded st size); [done|].
  by case_bool_decide.
Qed.

(** C10. With [max_heap_size] set to zero the cap test of
    [internal_alloc] lets every request through: [calloc (1, size)] is
    called and its result returned, whatever the size and the running
    total. *)
Theorem zero_cap_disables_limit (size ret : Z) (st : gc_state) :
  let st0 := gc_debug_set_max_heap 0 st in
  cap_exceeded st0 size = false ∧
  (internal_alloc size ret st0).1 = ret ∧
  events (internal_alloc size ret st0).2
  = EvInternalAlloc size ret :: EvCalloc 1 size ret :: events st.
Proof.
  assert (cap_exceeded (gc_debug_set_max_heap 0 st) size = false) as Hcap.
  { apply andb_false_iff. left. apply bool_decide_eq_false_2. simpl. lia. }
  cbv zeta. rewrite internal_alloc_passed by done.
  split; [done|]. split; [done|].
  unfold calloc. simpl. by case_bool_decide.
Qed.

(** ** The sweep loop *)

Section sweep_loop.

(** The mark set the sweep tests against. *)
Context (M : gmap Z Z).

(** [total_swept] is the sum, in 64-bit arithmetic, of the sizes of the
    entries that are not marked. *)
Lemma sweep_total ovw l :
  ∀ m evs t,
    (foldl (sweep_step M ovw) (m, evs, wrap64 t) l).2
    = wrap64 (t + sizes_sum (filter (λ e, M !! e.1 = None) l)).
Proof.
  induction l as [|e l IH]; intros m evs t; simpl.
  - by rewrite Z.add_0_r.
  - rewrite filter_cons. unfold sweep_step at 2. simpl.
    destruct (M !! e.1) as [x|] eqn:He.
    + rewrite decide_False by done. apply IH.
    + rewrite decide_True by done. rewrite wrap64_add_l, IH. simpl.
      f_equal. lia.
Qed.

(** The events of the sweep: one [free] per unmarked entry, preceded by
    one [memset] when the overwrite flag is set, and nothing else. *)
Lemma sweep_events ovw l :
  ∀ m evs t, ∃ new,
    (foldl (sweep_step M ovw) (m, evs, t) l).1.2 = new ++ evs ∧
    ∀ ev, ev ∈ new ↔
      ∃ a sz, (a, sz) ∈ l ∧ M !! a = None ∧
        (ev = EvFree a ∨ (ovw = true ∧ ev = EvMemset a xab sz)).
Proof.
  induction l as [|[a sz] l IH]; intros m evs t; simpl.
  - exists []. split; [done|]. intros ev. split.
    + by intros ?%elem_of_nil.
    + intros (? & ? & ?%elem_of_nil & _). done.
  - unfold sweep_step at 2. simpl.
    destruct (M !! a) as [x|] eqn:Ha.
    + destruct (IH m evs t) as (new & -> & Hnew). exists new.
      split; [done|]. intros ev. rewrite Hnew. split.
      * intros (a' & sz' & Hin & Hrest). exists a', sz'.
        split; [by apply list_elem_of_further|done].
      * intros (a' & sz' & [[= -> ->]|Hin]%elem_of_cons & Hn & Hrest);
          [congruence|eauto].
    + match goal with
      | |- context [foldl _ (?m', ?evs', ?t') l] =>
          destruct (IH m' evs' t') as (new & -> & Hnew)
      end.
      exists (new ++ EvFree a :: (if ovw then [EvMemset a xab sz] else [])).
      split.
      { rewrite <- app_assoc. simpl. by destruct ovw. }
      intros ev. rewrite elem_of_app, elem_of_cons, Hnew. split.
      * intros [(a' & sz' & Hin & Hrest)|[->|Hev]].
        -- exists a', sz'. split; [by apply list_elem_of_further|done].
        -- exists a, sz. split; [apply list_elem_of_here|auto].
        -- destruct ovw; [|by apply elem_of_nil in Hev].
           apply list_elem_of_singleton in Hev as ->.
           exists a, sz. split; [apply list_elem_of_here|auto].
      * intros (a' & sz' & [[= -> ->]|Hin]%elem_of_cons & Hn & Hrest).
        -- destruct Hrest as [->|[-> ->]]; [auto|].
           right. right. apply list_elem_of_here.
        -- left. eauto 6.
Qed.

(** The [free] of an unmarked entry is the call that follows its
    [memset], when the flag asks for one. *)
Lemma sweep_events_order ovw l a sz :
  ∀ m evs t, (a, sz) ∈ l → M !! a = None →
    ∃ newer older,
      (foldl (sweep_step M ovw) (m, evs, t) l).1.2
      = newer ++ EvFree a :: (if ovw then [EvMemset a xab sz] else [])
          ++ older ++ evs.
Proof.
  induction l as [|[a' sz'] l IH]; intros m evs t Hin Ha.
  - by apply elem_of_nil in Hin.
  - cbn [foldl].
    destruct (sweep_step M ovw (m, evs, t) (a', sz'))
      as [[m' evs'] t'] eqn:Hstep.
    unfold sweep_step in Hstep. simpl in Hstep.
    apply elem_of_cons in Hin as [[= <- <-]|Hin].
    + rewrite Ha in Hstep. injection Hstep as _ <- _.
      destruct (sweep_events ovw l m'
                  (EvFree a :: (if ovw then EvMemset a xab sz :: evs
                                else evs)) t') as (new & -> & _).
      exists new, []. by destruct ovw.
    + destruct (IH m' evs' t' Hin Ha) as (newer & older & ->).
      destruct (M !! a') as [y|]; injection Hstep as _ <- _.
      * by exists newer, older.
      * exists newer, (older ++ EvFree a'
                       :: (if ovw then [EvMemset a' xab sz'] else [])).
        rewrite <- (app_assoc older). by destruct ovw.
Qed.

(** Bytes outside every unmarked entry keep their value. *)
Lemma sweep_mem_outside ovw l x :
  ∀ m evs t,
    (∀ a sz, (a, sz) ∈ l → M !! a = None → ¬ (a ≤ x < a + sz)) →
    (foldl (sweep_step M ovw) (m, evs, t) l).1.1 x = m x.
Proof.
  induction l as [|[a sz] l IH]; intros m evs t Hout; [done|].
  cbn [foldl].
  destruct (sweep_step M ovw (m, evs, t) (a, sz)) as [[m' evs'] t'] eqn:Hstep.
  rewrite IH.
  - unfold sweep_step in Hstep. simpl in Hstep.
    destruct (M !! a) as [y|] eqn:Ha; [by injection Hstep as <- _ _|].
    injection Hstep as <- _ _. destruct ovw; [|done]. unfold memset.
    rewrite bool_decide_eq_false_2; [done|].
    eapply Hout; [apply list_elem_of_here|done].
  - intros a' sz' Hin. apply Hout. by apply list_elem_of_further.
Qed.

(** Without the flag the sweep writes nothing. *)
Lemma sweep_mem_no_overwrite l :
  ∀ m evs t, (foldl (sweep_step M false) (m, evs, t) l).1.1 = m.
Proof.
  induction l as [|[a sz] l IH]; intros m evs t; [done|].
  cbn [foldl].
  destruct (sweep_step M false (m, evs, t) (a, sz)) as [[m' evs'] t'] eqn:Hstep.
  rewrite IH. unfold sweep_step in Hstep. simpl in Hstep.
  destruct (M !! a); by injection Hstep as <- _ _.
Qed.

End sweep_loop.

(** ** Sums of sizes *)

Lemma sizes_sum_perm l l' : l ≡ₚ l' → sizes_sum l = sizes_sum l'.
Proof.
  induction 1 as [|e l l' _ IH|e1 e2 l|l1 l2 l3 _ IH1 _ IH2]; simpl; lia.
Qed.

Lemma sizes_sum_app l l' : sizes_sum (l ++ l') = sizes_sum l + sizes_sum l'.
Proof. induction l as [|e l IH]; simpl; lia. Qed.

Lemma total_size_empty : total_size ∅ = 0.
Proof. unfold total_size. by rewrite map_to_list_empty. Qed.

Lemma total_size_insert (A : gmap Z Z) a sz :
  A !! a = None → total_size (<[a:=sz]> A) = sz + total_size A.
Proof.
  intros Ha. unfold total_size.
  by rewrite (sizes_sum_perm _ _ (map_to_list_insert A a sz Ha)).
Qed.

Lemma unmarked_entries_perm (A M : gmap Z Z) :
  filter (λ e, M !! e.1 = None) (map_to_list A) ≡ₚ map_to_list (A ∖ M).
Proof.
  apply NoDup_Permutation.
  - apply NoDup_filter, NoDup_map_to_list.
  - apply NoDup_map_to_list.
  - intros [a sz]. rewrite list_elem_of_filter, !elem_of_map_to_list.
    rewrite lookup_difference_Some. simpl. tauto.
Qed.

Lemma marked_entries_perm (A M : gmap Z Z) :
  M ⊆ A →
  filter (λ e, ¬ M !! e.1 = None) (map_to_list A) ≡ₚ map_to_list M.
Proof.
  intros Hsub. apply NoDup_Permutation.
  - apply NoDup_filter, NoDup_map_to_list.
  - apply NoDup_map_to_list.
  - intros [a sz]. rewrite list_elem_of_filter, !elem_of_map_to_list.
    simpl. split.
    + intros [Hn Ha]. destruct (M !! a) as [y|] eqn:HM; [|done].
      pose proof (lookup_weaken _ _ _ _ HM Hsub). congruence.
    + intros HM. split; [congruence|by eapply lookup_weaken].
Qed.

(** What a sub-table and its complement track adds up to the table. *)
Lemma total_size_split (A M : gmap Z Z) :
  M ⊆ A → total_size A = total_size M + total_size (A ∖ M).
Proof.
  intros Hsub. unfold total_size.
  rewrite <- (sizes_sum_perm _ _ (marked_entries_perm A M Hsub)).
  rewrite <- (sizes_sum_perm _ _ (unmarked_entries_perm A M)).
  rewrite <- sizes_sum_app. symmetry. apply sizes_sum_perm.
  rewrite Permutation_app_comm. apply filter_app_complement.
Qed.

Lemma sizes_sum_nonneg l : (∀ e, e ∈ l → 0 ≤ e.2) → 0 ≤ sizes_sum l.
Proof.
  induction l as [|e l IH]; intros Hl; simpl; [done|].
  pose proof (Hl e (list_elem_of_here _ _)).
  assert (0 ≤ sizes_sum l); [|lia].
  apply IH. intros e' He'. apply Hl. by apply list_elem_of_further.
Qed.

Lemma total_size_nonneg (A : gmap Z Z) :
  blocks_in_range A → 0 ≤ total_size A.
Proof.
  intros Hr. apply sizes_sum_nonneg. intros [a sz] Hin.
  apply elem_of_map_to_list in Hin. apply Hr in Hin. simpl. lia.
Qed.

(** ** gc_collect, unfolded *)

(** The state a collection sweeps: initialized, with the three events
    that precede the sweep logged. *)
Lemma gc_collect_Ok P s st st0 :
  gc_init P st = Ok st0 → scratch s ≠ 0 →
  ∃ marked,
    mark s st0 = Some marked ∧
    gc_collect P s st
    = Ok (sweep marked
            (emit (EvFree (scratch s))
               (emit (EvCalloc 8 15 (scratch s)) (emit EvCollect st0)))).
Proof.
  intros Hinit Hs. destruct (mark_total s st0) as [marked Hm].
  exists marked. split; [done|].
  unfold gc_collect. rewrite Hinit. cbn [mbind outcome_bind].
  rewrite bool_decide_eq_false_2 by done.
  change (mark s (emit (EvCalloc 8 15 (scratch s)) (emit EvCollect st0)))
    with (mark s st0).
  by rewrite Hm.
Qed.

Lemma sweep_heap marked st :
  allocations (sweep marked st) = marked ∧
  current_allocated (sweep marked st)
  = wrap64 (current_allocated st - total_size (allocations st ∖ marked)) ∧
  max_heap_size (sweep marked st) = max_heap_size st ∧
  gc_initialized (sweep marked st) = gc_initialized st ∧
  overwrite_reclaimed_blocks (sweep marked st)
  = overwrite_reclaimed_blocks st.
Proof.
  unfold sweep. simpl. repeat split.
  change 0 with (wrap64 0) at 1. rewrite sweep_total.
  unfold wrap64. rewrite Zminus_mod_idemp_r. simpl.
  by rewrite (sizes_sum_perm _ _ (unmarked_entries_perm _ _)).
Qed.

(** Everything one collection does to the state, in one place: the
    table, the total, the settings, the calls of the sweep, and the
    bytes it leaves alone. *)
Lemma gc_collect_effect P s st st0 :
  gc_init P st = Ok st0 → scratch s ≠ 0 →
  ∃ marked st' new,
    mark s st0 = Some marked ∧
    gc_collect P s st = Ok st' ∧
    allocations st' = marked ∧
    current_allocated st'
    = wrap64 (current_allocated st0 - total_size (allocations st0 ∖ marked)) ∧
    max_heap_size st' = max_heap_size st0 ∧
    gc_initialized st' = true ∧
    overwrite_reclaimed_blocks st' = overwrite_reclaimed_blocks st0 ∧
    events st'
    = new ++ [EvFree (scratch s); EvCalloc 8 15 (scratch s); EvCollect]
          ++ events st0 ∧
    (∀ ev, ev ∈ new ↔
       ∃ a sz, allocations st0 !! a = Some sz ∧ marked !! a = None ∧
         (ev = EvFree a ∨
          (overwrite_reclaimed_blocks st0 = true ∧ ev = EvMemset a xab sz))) ∧
    (∀ x, (∀ a sz, allocations st0 !! a = Some sz → marked !! a = None →
             ¬ (a ≤ x < a + sz)) →
          mem st' x = mem st0 x) ∧
    (overwrite_reclaimed_blocks st0 = false → mem st' = mem st0).
Proof.
  intros Hinit Hs.
  destruct (gc_collect_Ok P s st st0 Hinit Hs) as (marked & Hm & Hc).
  set (st1 := emit (EvFree (scratch s))
                (emit (EvCalloc 8 15 (scratch s)) (emit EvCollect st0))) in *.
  destruct (sweep_events marked (overwrite_reclaimed_blocks st1)
              (map_to_list (allocations st1)) (mem st1) (events st1) 0)
    as (new & Hev & Hnew).
  destruct (sweep_heap marked st1) as (HA & Hcur & Hmax & Hini & Hovw).
  apply gc_init_Ok in Hinit as (Hini0 & _).
  exists marked, (sweep marked st1), new.
  repeat split; try done.
  - intros (a & sz & Hin & Hrest)%Hnew.
    apply elem_of_map_to_list in Hin. eauto.
  - intros (a & sz & Hin & Hrest). apply Hnew. exists a, sz.
    by rewrite elem_of_map_to_list.
  - intros x Hout. unfold sweep. simpl. apply sweep_mem_outside.
    intros a sz Hin. apply elem_of_map_to_list in Hin. eauto.
  - intros Hoff. unfold sweep. simpl. rewrite Hoff.
    apply sweep_mem_no_overwrite.
Qed.

(** The calls of a sweep, in their order: the entry of an unmarked block
    is passed to [free], and when the overwrite flag is set the call
    just before that [free] is the [memset] of the block. *)
Lemma gc_collect_order P s st st0 st' marked new a sz :
  gc_init P st = Ok st0 → mark s st0 = Some marked →
  gc_collect P s st = Ok st' →
  events st'
  = new ++ [EvFree (scratch s); EvCalloc 8 15 (scratch s); EvCollect]
        ++ events st0 →
  allocations st0 !! a = Some sz → marked !! a = None →
  ∃ newer older,
    new = newer
          ++ EvFree a
             :: (if overwrite_reclaimed_blocks st0
                 then [EvMemset a xab sz] else [])
          ++ older.
Proof.
  intros Hinit Hm Hc Hev Ha Hn.
  assert (scratch s ≠ 0) as Hs.
  { intros Hz. unfold gc_collect in Hc. rewrite Hinit in Hc.
    cbn [mbind outcome_bind] in Hc.
    by rewrite bool_decide_eq_true_2 in Hc. }
  destruct (gc_collect_Ok P s st st0 Hinit Hs) as (marked' & Hm' & Hc').
  assert (marked' = marked) as -> by congruence.
  rewrite Hc' in Hc. injection Hc as <-.
  set (st1 := emit (EvFree (scratch s))
                (emit (EvCalloc 8 15 (scratch s)) (emit EvCollect st0))) in *.
  destruct (sweep_events_order marked (overwrite_reclaimed_blocks st1)
              (map_to_list (allocations st1)) a sz (mem st1) (events st1) 0)
    as (newer & older & Hord); [by apply elem_of_map_to_list|done|].
  exists newer, older.
  change (events (sweep marked st1))
    with (foldl (sweep_step marked (overwrite_reclaimed_blocks st1))
            (mem st1, events st1, 0) (map_to_list (allocations st1))).1.2
    in Hev.
  rewrite Hord in Hev.
  change (events st1)
    with ([EvFree (scratch s); EvCalloc 8 15 (scratch s); EvCollect]
          ++ events st0) in Hev.
  change (overwrite_reclaimed_blocks st1)
    with (overwrite_reclaimed_blocks st0) in Hev.
  apply (app_inv_tail
           ([EvFree (scratch s); EvCalloc 8 15 (scratch s); EvCollect]
            ++ events st0)).
  rewrite <- Hev, <- !app_assoc. simpl. by rewrite <- !app_assoc.
Qed.


(** C3. A tracked block that is in use when a collection starts keeps
    its entry in the allocation table and every byte of its contents.
    The sweep overwrites and frees nothing else than tracked blocks that
    are not in use: each [memset] it makes is that of 0xab over the
    whole of such a block, each [free] that of such a block.  The
    blocks are those [calloc] handed out, apart from one another and
    from the register buffer of the collection. *)
Theorem collect_preserves_reachable (P : platform) (s : snapshot)
    (st st0 : gc_state) :
  gc_init P st = Ok st0 →
  blocks_apart (allocations st0) →
  scratch s ≠ 0 → calloc_ok (allocations st0) (8 * 15) (scratch s) →
  ∃ st' new,
    gc_collect P s st = Ok st' ∧
    events st'
    = new ++ [EvFree (scratch s); EvCalloc 8 15 (scratch s); EvCollect]
          ++ events st0 ∧
    (∀ b sz,
       allocations st0 !! b = Some sz → live s st0 b →
       allocations st' !! b = Some sz ∧
       ∀ x, b ≤ x < b + sz → mem st' x = mem st0 x) ∧
    (∀ a c n, EvMemset a c n ∈ new →
       allocations st0 !! a = Some n ∧ c = xab ∧ ¬ live s st0 a) ∧
    (∀ a, EvFree a ∈ new →
       is_Some (allocations st0 !! a) ∧ ¬ live s st0 a).
Proof.
  intros Hinit Hapart Hs _.
  destruct (gc_collect_effect P s st st0 Hinit Hs)
    as (marked & st' & new & Hm & Hc & HA & _ & _ & _ & _ & Hev & Hnew
        & Hout & _).
  pose proof (scanned_from_empty _ _ _ _ (mark_scanned _ _ _ Hm)) as Hexact.
  assert (∀ a sz, allocations st0 !! a = Some sz → marked !! a = None →
            ¬ live s st0 a)
    as Hunreach.
  { intros a sz Ha Hn Hr%reachable_live.
    assert (marked !! a = Some sz) by (apply Hexact; done). congruence. }
  exists st', new. split; [done|]. split; [done|]. split; [|split].
  - intros b sz Hb Hr%reachable_live.
    assert (marked !! b = Some sz) as Hmb by (apply Hexact; done).
    split; [by rewrite HA|].
    intros x Hx. apply Hout. intros a sza Ha Hn Hxa.
    assert (a ≠ b) as Hne by congruence.
    destruct (Hapart a sza b sz Ha Hb Hne); lia.
  - intros a c n (a' & sz & Ha & Hn & [[=]|[_ [= -> -> ->]]])%Hnew. eauto.
  - intros a (a' & sz & Ha & Hn & [[= ->]|[_ [=]]])%Hnew. eauto.
Qed.

(** ** The tracked bytes fit in the address space *)

Lemma map_max_key (A : gmap Z Z) :
  A ≠ ∅ → ∃ k x, A !! k = Some x ∧ ∀ k' x', A !! k' = Some x' → k' ≤ k.
Proof.
  induction A as [|i x A Hi IH] using map_ind; [done|]. intros _.
  destruct (decide (A = ∅)) as [->|Hne].
  - exists i, x. split; [apply lookup_insert_eq|].
    intros k' x' [[-> _]|[_ Hk']]%lookup_insert_Some; [lia|].
    by rewrite lookup_empty in Hk'.
  - destruct (IH Hne) as (k & y & Hk & Hmax).
    destruct (decide (i ≤ k)) as [Hle|Hgt].
    + exists k, y. split.
      * rewrite lookup_insert_ne; [done|]. intros ->. congruence.
      * intros k' x' [[<- _]|[_ Hk']]%lookup_insert_Some; eauto.
    + exists i, x. split; [apply lookup_insert_eq|].
      intros k' x' [[-> _]|[_ Hk']]%lookup_insert_Some; [lia|].
      specialize (Hmax _ _ Hk'). lia.
Qed.

Lemma blocks_apart_subseteq (A B : gmap Z Z) :
  A ⊆ B → blocks_apart B → blocks_apart A.
Proof.
  intros Hsub HB a1 s1 a2 s2 H1 H2. apply HB; by eapply lookup_weaken.
Qed.

Lemma blocks_in_range_subseteq (A B : gmap Z Z) :
  A ⊆ B → blocks_in_range B → blocks_in_range A.
Proof. intros Hsub HB a s Ha. apply HB. by eapply lookup_weaken. Qed.

(** Blocks that lie apart inside [[lo, hi)] hold at most [hi - lo] bytes:
    take the block with the greatest address away, the others end below
    it. *)
Lemma total_size_within (n : nat) :
  ∀ (A : gmap Z Z) lo hi,
    size A = n → lo ≤ hi → blocks_apart A →
    (∀ a s, A !! a = Some s → lo ≤ a ∧ 0 ≤ s ∧ a + s ≤ hi) →
    total_size A ≤ hi - lo.
Proof.
  induction n as [|n IH]; intros A lo hi Hsize Hlohi Hapart Hin.
  - apply map_size_empty_inv in Hsize as ->. rewrite total_size_empty. lia.
  - assert (A ≠ ∅) as Hne.
    { intros ->. by rewrite map_size_empty in Hsize. }
    destruct (map_max_key A Hne) as (k & x & Hk & Hmax).
    destruct (Hin k x Hk) as (Hlok & Hx & Hkhi).
    rewrite <- (insert_delete_id A k x Hk).
    rewrite total_size_insert by apply lookup_delete_eq.
    assert (total_size (delete k A) ≤ k - lo); [|lia].
    apply IH; [|done| |].
    + rewrite map_size_delete_Some by eauto. by rewrite Hsize.
    + eapply blocks_apart_subseteq; [apply delete_subseteq|done].
    + intros a s [Hak Ha]%lookup_delete_Some.
      destruct (Hin a s Ha) as (Hloa & Hs & _).
      pose proof (Hmax a s Ha).
      destruct (Hapart a s k x Ha Hk) as [?|?]; [congruence|lia|lia].
Qed.

Lemma total_size_address_space (A : gmap Z Z) :
  blocks_apart A → blocks_in_range A → total_size A < 2 ^ 64.
Proof.
  intros Hapart Hrange.
  assert (total_size A ≤ 2 ^ 64 - 1); [|lia].
  apply (total_size_within (size A)); [done|lia|done|].
  intros a s Ha. apply Hrange in Ha. lia.
Qed.

(** ** The invariant is kept *)

Lemma heap_wf_initial m : heap_wf (initial_state m).
Proof.
  split; simpl; done.
Qed.

Lemma heap_wf_init P st st0 :
  gc_init P st = Ok st0 → heap_wf st → heap_wf st0.
Proof.
  intros Hinit Hwf. destruct (gc_initialized st) eqn:Hi.
  - apply gc_init_Ok in Hinit as (_ & _ & _ & _ & _ & _ & Heq & _).
    by rewrite Heq.
  - apply gc_init_Ok in Hinit as (Hini & _ & _ & _ & Hcur & _ & _ & Hempty).
    specialize (Hempty Hi).
    destruct Hwf as [_ _ Htot Hun]. specialize (Hun Hi).
    split; rewrite ?Hempty.
    + intros a1 s1 a2 s2 H1. by rewrite lookup_empty in H1.
    + intros a s H1. by rewrite lookup_empty in H1.
    + by rewrite Hcur, Htot, Hun.
    + by rewrite Hini.
Qed.

Lemma heap_wf_internal_alloc size ret st :
  heap_wf st → heap_wf (internal_alloc size ret st).2.
Proof.
  intros [Ha Hr Ht Hu].
  destruct (internal_alloc_heap size ret st) as (HA & Hc & _ & Hi & _).
  split; rewrite ?HA, ?Hc, ?Hi; done.
Qed.

Lemma heap_wf_sweep s st marked :
  heap_wf st → mark s st = Some marked →
  heap_wf (sweep marked st) ∧
  current_allocated (sweep marked st) = total_size marked ∧
  total_size marked ≤ current_allocated st.
Proof.
  intros [Ha Hr Ht Hu] Hm.
  pose proof (scanned_copies _ _ _ _ _ (mark_scanned _ _ _ Hm)
                (map_empty_subseteq _)) as Hsub.
  destruct (sweep_heap marked st) as (HA & Hc & _ & Hi & _).
  pose proof (total_size_split _ _ Hsub) as Hsplit.
  pose proof (total_size_address_space _ Ha Hr) as Hlt.
  assert (blocks_in_range marked) as Hrm
    by (by eapply blocks_in_range_subseteq).
  assert (blocks_in_range (allocations st ∖ marked)) as Hrd.
  { intros a sz [Ha' _]%lookup_difference_Some. by apply Hr. }
  pose proof (total_size_nonneg _ Hrm).
  pose proof (total_size_nonneg _ Hrd).
  assert (current_allocated (sweep marked st) = total_size marked) as Hcur.
  { rewrite Hc, Ht, Hsplit.
    replace (total_size marked + total_size (allocations st ∖ marked)
             - total_size (allocations st ∖ marked))
      with (total_size marked) by lia.
    apply wrap64_small. lia. }
  split; [|split; [done|lia]].
  split; rewrite ?HA, ?Hi.
  - by eapply blocks_apart_subseteq.
  - done.
  - done.
  - intros Hf. rewrite (Hu Hf) in Hsub.
    apply map_eq. intros i. rewrite lookup_empty.
    destruct (marked !! i) as [y|] eqn:Hy; [|done].
    pose proof (lookup_weaken _ _ _ _ Hy Hsub) as Hw.
    by rewrite lookup_empty in Hw.
Qed.

Lemma gc_collect_inv P s st st' :
  gc_collect P s st = Ok st' →
  ∃ st0, gc_init P st = Ok st0 ∧ scratch s ≠ 0.
Proof.
  unfold gc_collect. destruct (gc_init P st) as [st0| | |]; try discriminate.
  cbn [mbind outcome_bind]. case_bool_decide; [discriminate|]. eauto.
Qed.

Lemma heap_wf_collect P s st st' :
  heap_wf st → gc_collect P s st = Ok st' →
  heap_wf st' ∧ max_heap_size st' = max_heap_size st ∧
  gc_initialized st' = true ∧
  current_allocated st' ≤ current_allocated st.
Proof.
  intros Hwf Hc.
  destruct (gc_collect_inv _ _ _ _ Hc) as (st0 & Hinit & Hs).
  pose proof (heap_wf_init _ _ _ Hinit Hwf) as Hwf0.
  destruct (gc_collect_Ok P s st st0 Hinit Hs) as (marked & Hm & Hc').
  rewrite Hc in Hc'. injection Hc' as ->.
  apply gc_init_Ok in Hinit as (Hini & _ & _ & Hmax & Hcur & _).
  set (st1 := emit (EvFree (scratch s))
                (emit (EvCalloc 8 15 (scratch s)) (emit EvCollect st0))).
  assert (heap_wf st1) as Hwf1 by (by destruct Hwf0).
  destruct (heap_wf_sweep s st1 marked Hwf1 Hm) as (Hwf' & _ & Hle).
  destruct (sweep_heap marked st1) as (_ & _ & Hmax' & Hini' & _).
  split; [done|]. rewrite Hmax', Hini'. repeat split; try done.
  destruct Hwf' as [_ _ -> _]. by rewrite <- Hcur.
Qed.

(** ** gc_alloc, unfolded *)

Lemma internal_alloc_result size ret st :
  (internal_alloc size ret st).1 = 0 ∨
  ((internal_alloc size ret st).1 = ret ∧ cap_exceeded st size = false).
Proof. unfold internal_alloc. destruct (cap_exceeded st size); auto. Qed.

Lemma internal_alloc_events size ret st :
  ∃ new,
    events (internal_alloc size ret st).2 = new ++ events st ∧
    count is_collect new = 0%nat ∧ count is_internal_alloc new = 1%nat ∧
    count (is_calloc_of size) new
    = (if cap_exceeded st size then 0 else 1)%nat.
Proof.
  unfold internal_alloc, calloc. destruct (cap_exceeded st size).
  - exists [EvInternalAlloc size 0]. by repeat split.
  - exists [EvInternalAlloc size ret; EvCalloc 1 size ret].
    repeat split; [by case_bool_decide|].
    unfold count. simpl. by rewrite bool_decide_eq_true_2.
Qed.

Lemma internal_alloc_zeroed size ret st x :
  (internal_alloc size ret st).1 ≠ 0 → ret ≤ x < ret + size →
  mem (internal_alloc size ret st).2 x = x00.
Proof.
  unfold internal_alloc, calloc.
  destruct (cap_exceeded st size); simpl; [done|]. intros Hret Hx.
  rewrite bool_decide_eq_false_2 by done. simpl. unfold memset.
  rewrite bool_decide_eq_true_2; [done|lia].
Qed.

Lemma gc_alloc_first P size e st st0 :
  gc_init P st = Ok st0 →
  (internal_alloc size (first_ret e) st0).1 ≠ 0 →
  gc_alloc P size e st
  = Ok (track size (internal_alloc size (first_ret e) st0)).
Proof.
  intros Hinit Hp. unfold gc_alloc. rewrite Hinit.
  cbn [mbind outcome_bind]. by rewrite bool_decide_eq_false_2.
Qed.

Lemma gc_alloc_second P size e st st0 st2 :
  gc_init P st = Ok st0 →
  (internal_alloc size (first_ret e) st0).1 = 0 →
  gc_collect P (collect_env e) (internal_alloc size (first_ret e) st0).2
  = Ok st2 →
  gc_alloc P size e st
  = Ok (track size (internal_alloc size (retry_ret e) st2)).
Proof.
  intros Hinit Hp Hc. unfold gc_alloc. rewrite Hinit.
  cbn [mbind outcome_bind]. rewrite bool_decide_eq_true_2 by done.
  by rewrite Hc.
Qed.

(** The collection inside [gc_alloc] runs on an initialized state. *)
Lemma gc_alloc_collect P size e st st0 :
  gc_init P st = Ok st0 → scratch (collect_env e) ≠ 0 →
  ∃ st2,
    gc_collect P (collect_env e) (internal_alloc size (first_ret e) st0).2
    = Ok st2 ∧
    gc_init P (internal_alloc size (first_ret e) st0).2
    = Ok (internal_alloc size (first_ret e) st0).2.
Proof.
  intros Hinit Hs.
  assert (gc_init P (internal_alloc size (first_ret e) st0).2
          = Ok (internal_alloc size (first_ret e) st0).2) as Hinit1.
  { apply gc_init_initialized.
    destruct (internal_alloc_heap size (first_ret e) st0)
      as (_ & _ & _ & -> & _).
    by apply gc_init_Ok in Hinit as (? & _). }
  destruct (gc_collect_effect P _ _ _ Hinit1 Hs)
    as (marked & st2 & new & _ & Hc & _).
  eauto.
Qed.

Lemma count_app f l1 l2 : count f (l1 ++ l2) = (count f l1 + count f l2)%nat.
Proof. unfold count. by rewrite List.filter_app, length_app. Qed.

Lemma count_none f l : (∀ ev, ev ∈ l → f ev = false) → count f l = 0%nat.
Proof.
  unfold count. induction l as [|ev l IH]; intros Hl; simpl; [done|].
  rewrite (Hl ev) by apply list_elem_of_here.
  apply IH. intros ev' Hin. apply Hl. by apply list_elem_of_further.
Qed.

Lemma track_events size r : events (track size r).2 = events r.2.
Proof. unfold track. by case_bool_decide. Qed.

Lemma track_result size r : (track size r).1 = r.1.
Proof. unfold track. by case_bool_decide. Qed.

(** The events of one collection: one [EvCollect], no [EvInternalAlloc],
    no [calloc] of a client block. *)
Lemma gc_collect_counts P s st st0 st' :
  gc_init P st = Ok st0 → gc_collect P s st = Ok st' →
  count is_collect (events st') = S (count is_collect (events st0)) ∧
  count is_internal_alloc (events st')
  = count is_internal_alloc (events st0) ∧
  ∀ size, count (is_calloc_of size) (events st')
          = count (is_calloc_of size) (events st0).
Proof.
  intros Hinit Hc.
  destruct (gc_collect_inv _ _ _ _ Hc) as (st0' & Hinit' & Hs).
  assert (st0' = st0) as -> by congruence.
  destruct (gc_collect_effect P s st st0 Hinit Hs)
    as (marked & st'' & new & _ & Hc' & _ & _ & _ & _ & _ & Hev & Hnew & _).
  assert (st'' = st') as -> by congruence.
  rewrite Hev.
  assert (∀ f, (∀ a, f (EvFree a) = false) →
               (∀ a c n, f (EvMemset a c n) = false) →
               count f new = 0%nat) as Hnone.
  { intros f Hf1 Hf2. apply count_none.
    intros ev (a & sz & _ & _ & [->|[_ ->]])%Hnew; auto. }
  repeat split; [..|intros size]; rewrite !count_app, Hnone by done; done.
Qed.

(** As long as [calloc] gives the collection its register buffer,
    [gc_alloc] makes a first attempt with [internal_alloc]; when it
    succeeds its result is returned and no collection runs; when it
    fails exactly one collection runs, followed by exactly one more
    attempt, whose result, null or not, is what [gc_alloc] returns. *)
Theorem gc_alloc_collects_once (P : platform) (size : Z) (e : alloc_env)
    (st st0 : gc_state) :
  gc_init P st = Ok st0 →
  ((internal_alloc size (first_ret e) st0).1 = 0 →
   scratch (collect_env e) ≠ 0) →
  ∃ p st',
    gc_alloc P size e st = Ok (p, st') ∧
    ((internal_alloc size (first_ret e) st0).1 ≠ 0 →
     p = (internal_alloc size (first_ret e) st0).1 ∧
     count is_internal_alloc (events st')
     = S (count is_internal_alloc (events st0)) ∧
     count is_collect (events st') = count is_collect (events st0)) ∧
    ((internal_alloc size (first_ret e) st0).1 = 0 →
     ∃ st2,
       gc_collect P (collect_env e)
         (internal_alloc size (first_ret e) st0).2 = Ok st2 ∧
       p = (internal_alloc size (retry_ret e) st2).1 ∧
       count is_internal_alloc (events st')
       = S (S (count is_internal_alloc (events st0))) ∧
       count is_collect (events st') = S (count is_collect (events st0))).
Proof.
  intros Hinit Hscratch.
  destruct (internal_alloc_events size (first_ret e) st0)
    as (new1 & Hev1 & Hc1 & Hi1 & _).
  destruct (decide ((internal_alloc size (first_ret e) st0).1 = 0))
    as [Hfail|Hok].
  - destruct (gc_alloc_collect P size e st st0 Hinit (Hscratch Hfail))
      as (st2 & Hc & Hinit1).
    destruct (gc_collect_counts _ _ _ _ _ Hinit1 Hc) as (Hcc & Hci & _).
    destruct (internal_alloc_events size (retry_ret e) st2)
      as (new2 & Hev2 & Hc2 & Hi2 & _).
    eexists _, _. split.
    { rewrite (gc_alloc_second _ _ _ _ _ _ Hinit Hfail Hc).
      as_pair. }
    split; [done|]. intros _. exists st2.
    rewrite track_result, track_events, Hev2, !count_app.
    rewrite Hi2, Hc2, Hci, Hcc, Hev1, !count_app, Hi1, Hc1.
    done.
  - eexists _, _. split.
    { rewrite (gc_alloc_first _ _ _ _ _ Hinit Hok).
      as_pair. }
    split; [|done]. intros _.
    rewrite track_result, track_events, Hev1, !count_app, Hi1, Hc1.
    done.
Qed.

(** C4, at the input where the claim fails.  The first attempt fails
    and [calloc] has no memory for the 15-slot register buffer of the
    collection either: [gc_collect] passes the null pointer to
    [get_registers], which stores through it.  [gc_alloc] does not
    return null, and makes no second attempt: the process ends at that
    store. *)
Theorem gc_alloc_without_register_buffer (P : platform) (size : Z)
    (e : alloc_env) (st st0 : gc_state) :
  gc_init P st = Ok st0 →
  (internal_alloc size (first_ret e) st0).1 = 0 →
  scratch (collect_env e) = 0 →
  gc_collect P (collect_env e) (internal_alloc size (first_ret e) st0).2
  = Undefined ∧
  gc_alloc P size e st = Undefined ∧
  ∀ p st', gc_alloc P size e st ≠ Ok (p, st').
Proof.
  intros Hinit Hfail Hs.
  assert (gc_collect P (collect_env e)
            (internal_alloc size (first_ret e) st0).2 = Undefined) as Hc.
  { unfold gc_collect. rewrite gc_init_initialized.
    - cbn [mbind outcome_bind]. by rewrite bool_decide_eq_true_2.
    - destruct (internal_alloc_heap size (first_ret e) st0)
        as (_ & _ & _ & -> & _).
      by apply gc_init_Ok in Hinit as (? & _). }
  assert (gc_alloc P size e st = Undefined) as Ha.
  { unfold gc_alloc. rewrite Hinit. cbn [mbind outcome_bind].
    rewrite bool_decide_eq_true_2 by done. by rewrite Hc. }
  split; [done|]. split; [done|]. intros p st'. by rewrite Ha.
Qed.

Lemma gc_alloc_without_register_buffer_witness :
  gc_collect demo_platform (collect_env demo_exhausted)
    (internal_alloc 8 (first_ret demo_exhausted) demo_uncapped).2
  = Undefined ∧
  gc_alloc demo_platform 8 demo_exhausted demo_uncapped = Undefined ∧
  ∀ p st', gc_alloc demo_platform 8 demo_exhausted demo_uncapped
           ≠ Ok (p, st').
Proof.
  apply (gc_alloc_without_register_buffer demo_platform 8 demo_exhausted
           demo_uncapped demo_uncapped); reflexivity.
Defined.

(** ** Tracking a new block *)

Lemma track_heap size r :
  heap_wf r.2 → gc_initialized r.2 = true → 0 ≤ size →
  calloc_ok (allocations r.2) size r.1 →
  heap_wf (track size r).2 ∧
  max_heap_size (track size r).2 = max_heap_size r.2 ∧
  mem (track size r).2 = mem r.2 ∧
  (r.1 = 0 → track size r = r) ∧
  (r.1 ≠ 0 →
   allocations r.2 !! r.1 = None ∧
   allocations (track size r).2 = <[r.1:=size]> (allocations r.2) ∧
   current_allocated (track size r).2 = current_allocated r.2 + size ∧
   current_allocated (track size r).2
   = wrap64 (current_allocated r.2 + size)).
Proof.
  intros Hwf Hini Hsize Hok. unfold track. case_bool_decide as Hp.
  { split; [done|]. repeat split; done. }
  destruct Hok as [?|(Hpos & Hend & Hfresh & Hfar)]; [done|].
  destruct Hwf as [Hapart Hrange Htot Hun].
  assert (blocks_apart (<[r.1:=size]> (allocations r.2))) as Hapart'.
  { intros a1 s1 a2 s2 [[<- <-]|[Hn1 H1]]%lookup_insert_Some
                       [[<- <-]|[Hn2 H2]]%lookup_insert_Some Hne.
    - done.
    - by apply Hfar.
    - destruct (Hfar _ _ H1); auto.
    - by eapply Hapart. }
  assert (blocks_in_range (<[r.1:=size]> (allocations r.2))) as Hrange'.
  { intros a s [[<- <-]|[Hn1 H1]]%lookup_insert_Some; [lia|by apply Hrange]. }
  pose proof (total_size_address_space _ Hapart' Hrange') as Hlt.
  rewrite total_size_insert in Hlt by done.
  pose proof (total_size_nonneg _ Hrange) as Hge.
  assert (wrap64 (current_allocated r.2 + size) = current_allocated r.2 + size)
    as Hwrap by (apply wrap64_small; lia).
  split; [split; simpl|].
  - done.
  - done.
  - rewrite Hwrap, total_size_insert, Htot by done. lia.
  - intros Hf. congruence.
  - simpl. repeat split; done.
Qed.

Lemma internal_alloc_calloc_ok A size ret st :
  calloc_ok A size ret → calloc_ok A size (internal_alloc size ret st).1.
Proof.
  intros Hok. destruct (internal_alloc_result size ret st) as [->|[-> _]];
    [by left|done].
Qed.

(** One attempt followed by the bookkeeping of [gc_alloc] keeps the
    total under a cap that is set. *)
Lemma attempt_under_cap size ret st :
  heap_wf st → gc_initialized st = true → 0 ≤ size →
  calloc_ok (allocations st) size ret →
  0 < max_heap_size st → current_allocated st ≤ max_heap_size st →
  heap_wf (track size (internal_alloc size ret st)).2 ∧
  max_heap_size (track size (internal_alloc size ret st)).2
  = max_heap_size st ∧
  current_allocated (track size (internal_alloc size ret st)).2
  ≤ max_heap_size st.
Proof.
  intros Hwf Hini Hsize Hok Hcap Hle.
  destruct (internal_alloc_heap size ret st) as (HA & Hc & Hm & Hi & _).
  destruct (track_heap size (internal_alloc size ret st))
    as (Hwf' & Hmax' & _ & Hnull & Hnew).
  { by apply heap_wf_internal_alloc. }
  { by rewrite Hi. }
  { done. }
  { rewrite HA. by apply internal_alloc_calloc_ok. }
  split; [done|]. split; [by rewrite Hmax', Hm|].
  destruct (internal_alloc_result size ret st) as [Hz|[Hret Hpass]].
  - rewrite (Hnull Hz), Hc. done.
  - destruct (decide ((internal_alloc size ret st).1 = 0)) as [Hz|Hnz].
    { rewrite (Hnull Hz), Hc. done. }
    destruct (Hnew Hnz) as (_ & _ & _ & ->). rewrite Hc.
    unfold cap_exceeded in Hpass.
    apply andb_false_iff in Hpass as [Hpass|Hpass];
      apply bool_decide_eq_false in Hpass; lia.
Qed.

(** C7. When [gc_alloc] returns a block, its bytes are zero, the block
    was not in the allocation table, the table gains the one entry
    (address, size) and the running total grows by size; when it returns
    null, the table and the running total are those the last attempt
    found.  The state the returned attempt is made in is the state at
    the call, or, after a failed first attempt, the state the collection
    leaves. *)
Theorem gc_alloc_tracks (P : platform) (size : Z) (e : alloc_env)
    (st st0 : gc_state) :
  gc_init P st = Ok st0 → heap_wf st → 0 ≤ size →
  alloc_env_ok P size e st0 →
  ∃ p st' before,
    gc_alloc P size e st = Ok (p, st') ∧
    ((internal_alloc size (first_ret e) st0).1 ≠ 0 ∧ before = st0 ∨
     (internal_alloc size (first_ret e) st0).1 = 0 ∧
     gc_collect P (collect_env e) (internal_alloc size (first_ret e) st0).2
     = Ok before) ∧
    (p ≠ 0 →
     (∀ x, p ≤ x < p + size → mem st' x = x00) ∧
     allocations before !! p = None ∧
     allocations st' = <[p:=size]> (allocations before) ∧
     current_allocated st' = current_allocated before + size) ∧
    (p = 0 →
     allocations st' = allocations before ∧
     current_allocated st' = current_allocated before).
Proof.
  intros Hinit Hwf Hsize [Hok1 Hretry].
  pose proof (heap_wf_init _ _ _ Hinit Hwf) as Hwf0.
  assert (gc_initialized st0 = true) as Hini0
    by (by apply gc_init_Ok in Hinit as (? & _)).
  assert (∀ ret stb,
            heap_wf stb → gc_initialized stb = true →
            calloc_ok (allocations stb) size ret →
            let r := track size (internal_alloc size ret stb) in
            (r.1 ≠ 0 →
             (∀ x, r.1 ≤ x < r.1 + size → mem r.2 x = x00) ∧
             allocations stb !! r.1 = None ∧
             allocations r.2 = <[r.1:=size]> (allocations stb) ∧
             current_allocated r.2 = current_allocated stb + size) ∧
            (r.1 = 0 →
             allocations r.2 = allocations stb ∧
             current_allocated r.2 = current_allocated stb)) as Hattempt.
  { intros ret stb Hwfb Hinib Hokb r. subst r.
    destruct (internal_alloc_heap size ret stb) as (HA & Hc & _ & Hi & _).
    destruct (track_heap size (internal_alloc size ret stb))
      as (_ & _ & Hmem & Hnull & Hnew).
    { by apply heap_wf_internal_alloc. }
    { by rewrite Hi. }
    { done. }
    { rewrite HA. by apply internal_alloc_calloc_ok. }
    rewrite track_result. split.
    - intros Hnz. destruct (Hnew Hnz) as (Hfresh & Hins & Hcur & _).
      rewrite Hins, Hcur, Hmem, HA, Hc in *. repeat split; try done.
      intros x Hx.
      destruct (internal_alloc_result size ret stb) as [?|[Hret _]]; [done|].
      apply internal_alloc_zeroed; [done|]. by rewrite <- Hret.
    - intros Hz. rewrite (Hnull Hz). by rewrite HA, Hc. }
  destruct (decide ((internal_alloc size (first_ret e) st0).1 = 0))
    as [Hfail|Hfirst].
  - destruct (Hretry Hfail) as [Hs Hok2].
    destruct (gc_alloc_collect P size e st st0 Hinit Hs) as (st2 & Hc & _).
    destruct (heap_wf_collect _ _ _ _
                (heap_wf_internal_alloc size (first_ret e) st0 Hwf0) Hc)
      as (Hwf2 & _ & Hini2 & _).
    eexists _, _, st2. split.
    { rewrite (gc_alloc_second _ _ _ _ _ _ Hinit Hfail Hc).
      as_pair. }
    split; [by right|]. by apply Hattempt; [| |apply Hok2].
  - eexists _, _, st0. split.
    { rewrite (gc_alloc_first _ _ _ _ _ Hinit Hfirst).
      as_pair. }
    split; [by left|]. by apply Hattempt.
Qed.

(** ** The invariant along executions *)

Lemma attempt_wf size ret st :
  heap_wf st → gc_initialized st = true → 0 ≤ size →
  calloc_ok (allocations st) size ret →
  heap_wf (track size (internal_alloc size ret st)).2.
Proof.
  intros Hwf Hini Hsize Hok.
  destruct (internal_alloc_heap size ret st) as (HA & _ & _ & Hi & _).
  apply track_heap.
  - by apply heap_wf_internal_alloc.
  - by rewrite Hi.
  - done.
  - rewrite HA. by apply internal_alloc_calloc_ok.
Qed.

Lemma heap_wf_step P st st' : heap_wf st → step P st st' → heap_wf st'.
Proof.
  intros Hwf Hstep.
  destruct Hstep as [size e st st0 p st' Hsize Hinit [Hok1 Hretry] Hga
                    |s st st' Hc|m st|flag st|flag st].
  - pose proof (heap_wf_init _ _ _ Hinit Hwf) as Hwf0.
    pose proof (gc_init_Ok _ _ _ Hinit) as (Hini0 & _).
    destruct (decide ((internal_alloc size (first_ret e) st0).1 = 0))
      as [Hfail|Hfirst].
    + destruct (Hretry Hfail) as [Hs Hok2].
      destruct (gc_alloc_collect P size e st st0 Hinit Hs) as (st2 & Hc & _).
      destruct (heap_wf_collect _ _ _ _
                  (heap_wf_internal_alloc size (first_ret e) st0 Hwf0) Hc)
        as (Hwf2 & _ & Hini2 & _).
      rewrite (gc_alloc_second _ _ _ _ _ _ Hinit Hfail Hc) in Hga.
      returned Hga. apply attempt_wf; try done; [lia|by apply Hok2].
    + rewrite (gc_alloc_first _ _ _ _ _ Hinit Hfirst) in Hga.
      returned Hga. apply attempt_wf; try done; lia.
  - by destruct (heap_wf_collect _ _ _ _ Hwf Hc).
  - by destruct Hwf.
  - by destruct Hwf.
  - by destruct Hwf.
Qed.

Lemma heap_wf_set_max_heap size st :
  heap_wf st → heap_wf (gc_debug_set_max_heap size st).
Proof. by intros []. Qed.

(** Every state of an execution that starts with the process is well
    formed, whatever cap is set first. *)
Lemma heap_wf_reachable P m cap st :
  rtc (step P) (gc_debug_set_max_heap cap (initial_state m)) st →
  heap_wf st.
Proof.
  intros Hrun.
  assert (heap_wf (gc_debug_set_max_heap cap (initial_state m))) as Hwf
    by apply heap_wf_set_max_heap, heap_wf_initial.
  induction Hrun as [st|st st1 st' Hstep _ IH]; [done|].
  apply IH. by eapply heap_wf_step.
Qed.

(** ** The cap *)

Lemma step_under_cap P st st' :
  heap_wf st → 0 < max_heap_size st →
  current_allocated st ≤ max_heap_size st →
  step P st st' →
  heap_wf st' ∧ max_heap_size st' = max_heap_size st ∧
  current_allocated st' ≤ max_heap_size st'.
Proof.
  intros Hwf Hcap Hle Hstep.
  destruct Hstep as [size e st st0 p st' Hsize Hinit [Hok1 Hretry] Hga
                    |s st st' Hc|m st|flag st|flag st].
  - pose proof (heap_wf_init _ _ _ Hinit Hwf) as Hwf0.
    pose proof (gc_init_Ok _ _ _ Hinit) as (Hini0 & _ & _ & Hmax0 & Hcur0 & _).
    destruct (internal_alloc_heap size (first_ret e) st0)
      as (_ & Hc1 & Hm1 & _).
    destruct (decide ((internal_alloc size (first_ret e) st0).1 = 0))
      as [Hfail|Hfirst].
    + destruct (Hretry Hfail) as [Hs Hok2].
      destruct (gc_alloc_collect P size e st st0 Hinit Hs) as (st2 & Hc & _).
      destruct (heap_wf_collect _ _ _ _
                  (heap_wf_internal_alloc size (first_ret e) st0 Hwf0) Hc)
        as (Hwf2 & Hmax2 & Hini2 & Hle2).
      rewrite (gc_alloc_second _ _ _ _ _ _ Hinit Hfail Hc) in Hga.
      returned Hga.
      destruct (attempt_under_cap size (retry_ret e) st2)
        as (Hwf' & Hmax' & Hle'); try done; try lia.
      { by apply Hok2. }
      rewrite Hmax'. split; [done|]. split; lia.
    + rewrite (gc_alloc_first _ _ _ _ _ Hinit Hfirst) in Hga.
      returned Hga.
      destruct (attempt_under_cap size (first_ret e) st0)
        as (Hwf' & Hmax' & Hle'); try done; try lia.
      rewrite Hmax'. split; [done|]. split; lia.
  - destruct (heap_wf_collect _ _ _ _ Hwf Hc) as (Hwf' & Hmax' & _ & Hle').
    split; [done|]. split; lia.
  - split; [by destruct Hwf|done].
  - split; [by destruct Hwf|done].
  - split; [by destruct Hwf|done].
Qed.

(** The cap is an invariant from any well-formed state within it. *)
Lemma cap_invariant P st st' :
  heap_wf st → 0 < max_heap_size st →
  current_allocated st ≤ max_heap_size st →
  rtc (step P) st st' →
  max_heap_size st' = max_heap_size st ∧
  current_allocated st' ≤ max_heap_size st'.
Proof.
  intros Hwf Hcap Hle Hrun. revert Hwf Hcap Hle.
  induction Hrun as [st|st st1 st' Hstep _ IH]; intros Hwf Hcap Hle.
  - done.
  - destruct (step_under_cap _ _ _ Hwf Hcap Hle Hstep) as (Hwf1 & Hmax1 & Hle1).
    destruct IH as [Hmax' Hle']; [done|lia|done|].
    split; [congruence|done].
Qed.

(** A cap set when the process starts is kept by every execution that
    does not change it. *)
Lemma cap_from_process_start P m cap st' :
  0 < cap →
  rtc (step P) (gc_debug_set_max_heap cap (initial_state m)) st' →
  max_heap_size st' = cap ∧ current_allocated st' ≤ cap.
Proof.
  intros Hcap Hrun.
  destruct (cap_invariant P (gc_debug_set_max_heap cap (initial_state m)) st')
    as [Hmax Hle].
  - apply heap_wf_set_max_heap, heap_wf_initial.
  - done.
  - simpl. lia.
  - done.
  - simpl in Hmax. split; [done|lia].
Qed.

(** Every state of an execution of the process is well formed, whenever
    and however often the cap is changed. *)
Lemma heap_wf_run P m st :
  rtc (run_step P) (initial_state m) st → heap_wf st.
Proof.
  intros Hrun. pose proof (heap_wf_initial m) as Hwf.
  induction Hrun as [st|st st1 st' Hstep _ IH]; [done|].
  apply IH. destruct Hstep as [st st1 Hstep|size st].
  - by eapply heap_wf_step.
  - by apply heap_wf_set_max_heap.
Qed.

Lemma capped_step_under_cap P st st' :
  heap_wf st → 0 < max_heap_size st →
  current_allocated st ≤ max_heap_size st →
  capped_step P st st' →
  heap_wf st' ∧ 0 < max_heap_size st' ∧
  current_allocated st' ≤ max_heap_size st'.
Proof.
  intros Hwf Hcap Hle Hstep. destruct Hstep as [st st' Hstep|size st Hsize Hfit].
  - destruct (step_under_cap _ _ _ Hwf Hcap Hle Hstep) as (Hwf' & Hmax & Hle').
    split; [done|]. split; [lia|done].
  - split; [by apply heap_wf_set_max_heap|]. simpl. lia.
Qed.


(** The cap test of [internal_alloc] rejects every request that would
    take the running total over a nonzero cap, as long as the sum fits
    in 64 bits. *)
Lemma cap_exceeded_over st size :
  0 < max_heap_size st → 0 ≤ current_allocated st + size < 2 ^ 64 →
  max_heap_size st < current_allocated st + size →
  cap_exceeded st size = true.
Proof.
  intros Hcap Hfit Hover. unfold cap_exceeded.
  rewrite wrap64_small by lia. by rewrite !bool_decide_eq_true_2.
Qed.

(** C5, as amended.  A request that the cap test rejects (a nonzero cap
    is set and [current_allocated + size], computed in 64 bits, is above
    it) makes [internal_alloc] return null without calling [calloc].
    [gc_alloc] treats this like any failed attempt: it runs one
    collection and asks [internal_alloc] once more; [calloc] is called
    for the request only if the cap test passes after the collection. *)
Theorem cap_denial_collects_then_retries (P : platform) (size : Z)
    (e : alloc_env) (st st0 : gc_state) :
  gc_init P st = Ok st0 →
  cap_exceeded st0 size = true →
  scratch (collect_env e) ≠ 0 →
  internal_alloc size (first_ret e) st0
  = (0, emit (EvInternalAlloc size 0) st0) ∧
  ∃ st2 st',
    gc_collect P (collect_env e) (emit (EvInternalAlloc size 0) st0)
    = Ok st2 ∧
    gc_alloc P size e st
    = Ok ((internal_alloc size (retry_ret e) st2).1, st') ∧
    count is_collect (events st') = S (count is_collect (events st0)) ∧
    count (is_calloc_of size) (events st')
    = (count (is_calloc_of size) (events st0)
       + if cap_exceeded st2 size then 0 else 1)%nat.
Proof.
  intros Hinit Hdenied Hs.
  pose proof (internal_alloc_denied size (first_ret e) st0 Hdenied) as Hfirst.
  split; [done|].
  assert ((internal_alloc size (first_ret e) st0).1 = 0) as Hfail
    by (by rewrite Hfirst).
  destruct (gc_alloc_collect P size e st st0 Hinit Hs) as (st2 & Hc & Hinit1).
  destruct (gc_collect_counts _ _ _ _ _ Hinit1 Hc) as (Hcc & _ & Hck).
  destruct (internal_alloc_events size (retry_ret e) st2)
    as (new2 & Hev2 & Hc2 & _ & Hk2).
  exists st2, (track size (internal_alloc size (retry_ret e) st2)).2.
  split; [by rewrite Hfirst in Hc|]. split.
  { rewrite (gc_alloc_second _ _ _ _ _ _ Hinit Hfail Hc).
    by rewrite <- track_result with (size := size), <- surjective_pairing. }
  rewrite track_events, Hev2, !count_app, Hc2, Hk2, Hcc, Hck, Hfirst.
  split; [done|]. unfold emit, count. simpl. lia.
Qed.

(** ** The small process, checked *)

Lemma demo_init : gc_init demo_platform demo_state = Ok demo_state.
Proof. reflexivity. Qed.

Lemma demo_heap_lookup a s :
  demo_heap !! a = Some s →
  (a = 10000 ∧ s = 16) ∨ (a = 10016 ∧ s = 8) ∨ (a = 10032 ∧ s = 8).
Proof.
  unfold demo_heap.
  rewrite !lookup_insert_Some, lookup_singleton_Some.
  intros [[<- <-]|[_ [[<- <-]|[_ [<- <-]]]]]; auto.
Qed.

Lemma demo_heap_apart : blocks_apart demo_heap.
Proof.
  intros a1 s1 a2 s2 H1%demo_heap_lookup H2%demo_heap_lookup Hne. lia.
Qed.

Lemma demo_heap_wf : heap_wf demo_state.
Proof.
  split; simpl.
  - apply demo_heap_apart.
  - intros a s Ha%demo_heap_lookup. lia.
  - vm_compute. reflexivity.
  - discriminate.
Qed.

Lemma demo_env_ok : alloc_env_ok demo_platform 8 demo_env demo_state.
Proof.
  split.
  - right. repeat split; [by vm_compute..|].
    intros a s Ha%demo_heap_lookup. simpl. lia.
  - intros _. split; [done|]. intros st2 Hc.
    apply (f_equal (λ o, match o with
                         | Ok s => allocations s
                         | _ => ∅
                         end)) in Hc.
    cbv beta iota in Hc. rewrite <- Hc.
    replace (match gc_collect demo_platform (collect_env demo_env)
                     (internal_alloc 8 (first_ret demo_env) demo_state).2 with
             | Ok s => allocations s
             | _ => ∅
             end)
      with ({[ 10000 := 16; 10016 := 8 ]} : gmap Z Z)
      by (vm_compute; reflexivity).
    right. repeat split; [by vm_compute..|].
    intros a s. rewrite !lookup_insert_Some, lookup_singleton_Some.
    simpl. lia.
Qed.

(** The collection of the small process keeps the two linked blocks and
    reclaims the third. *)
Example demo_collect_result :
  match gc_collect demo_platform demo_snapshot demo_state with
  | Ok st' =>
      map_to_list (allocations st') = [(10000, 16); (10016, 8)] ∧
      current_allocated st' = 24 ∧
      load64 (mem st') 10008 = 10016
  | _ => False
  end.
Proof. vm_compute. by repeat split. Qed.

(** [testLinkList] of main.cpp: the head is held in a register, the
    second node only in the head; both survive the collection with
    their contents. *)
Example link_list_survives :
  test_link_list
  = Ok ([(10000, 8); (10016, 8)], 10016, x00).
Proof. vm_compute. reflexivity. Qed.


Lemma collect_preserves_reachable_witness :
  ∃ st' new,
    gc_collect demo_platform demo_snapshot demo_state = Ok st' ∧
    events st'
    = new ++ [EvFree (scratch demo_snapshot);
              EvCalloc 8 15 (scratch demo_snapshot); EvCollect]
          ++ events demo_state ∧
    (∀ b sz,
       allocations demo_state !! b = Some sz → live demo_snapshot demo_state b →
       allocations st' !! b = Some sz ∧
       ∀ x, b ≤ x < b + sz → mem st' x = mem demo_state x) ∧
    (∀ a c n, EvMemset a c n ∈ new →
       allocations demo_state !! a = Some n ∧ c = xab ∧
       ¬ live demo_snapshot demo_state a) ∧
    (∀ a, EvFree a ∈ new →
       is_Some (allocations demo_state !! a) ∧
       ¬ live demo_snapshot demo_state a).
Proof.
  apply (collect_preserves_reachable demo_platform demo_snapshot
           demo_state demo_state).
  - exact demo_init.
  - exact demo_heap_apart.
  - discriminate.
  - right. repeat split; [by vm_compute..|].
    intros a sz Ha%demo_heap_lookup. simpl. lia.
Defined.

Lemma gc_alloc_collects_once_witness :
  ∃ p st',
    gc_alloc demo_platform 8 demo_env demo_state = Ok (p, st') ∧
    ((internal_alloc 8 (first_ret demo_env) demo_state).1 ≠ 0 →
     p = (internal_alloc 8 (first_ret demo_env) demo_state).1 ∧
     count is_internal_alloc (events st')
     = S (count is_internal_alloc (events demo_state)) ∧
     count is_collect (events st') = count is_collect (events demo_state)) ∧
    ((internal_alloc 8 (first_ret demo_env) demo_state).1 = 0 →
     ∃ st2,
       gc_collect demo_platform (collect_env demo_env)
         (internal_alloc 8 (first_ret demo_env) demo_state).2 = Ok st2 ∧
       p = (internal_alloc 8 (retry_ret demo_env) st2).1 ∧
       count is_internal_alloc (events st')
       = S (S (count is_internal_alloc (events demo_state))) ∧
       count is_collect (events st')
       = S (count is_collect (events demo_state))).
Proof.
  apply (gc_alloc_collects_once demo_platform 8 demo_env
           demo_state demo_state).
  - exact demo_init.
  - intros _. discriminate.
Defined.

(** C5 as stated fails here: the request of 8 bytes would take the
    total from 32 to 40, over the cap of 32, yet [gc_alloc] runs a
    collection, calls [calloc] for the request and returns the block
    at 10032. *)
Lemma cap_denial_counterexample :
  0 < max_heap_size demo_state ∧
  max_heap_size demo_state < current_allocated demo_state + 8 ∧
  match gc_alloc demo_platform 8 demo_env demo_state with
  | Ok (p, st') =>
      p = 10032 ∧
      count is_collect (events st') = 1%nat ∧
      count (is_calloc_of 8) (events st') = 1%nat
  | _ => False
  end.
Proof. vm_compute. by repeat split. Qed.

Lemma cap_denial_collects_then_retries_witness :
  internal_alloc 8 (first_ret demo_env) demo_state
  = (0, emit (EvInternalAlloc 8 0) demo_state) ∧
  ∃ st2 st',
    gc_collect demo_platform (collect_env demo_env)
      (emit (EvInternalAlloc 8 0) demo_state) = Ok st2 ∧
    gc_alloc demo_platform 8 demo_env demo_state
    = Ok ((internal_alloc 8 (retry_ret demo_env) st2).1, st') ∧
    count is_collect (events st') = S (count is_collect (events demo_state)) ∧
    count (is_calloc_of 8) (events st')
    = (count (is_calloc_of 8) (events demo_state)
       + if cap_exceeded st2 8 then 0 else 1)%nat.
Proof.
  apply (cap_denial_collects_then_retries demo_platform 8 demo_env
           demo_state demo_state).
  - exact demo_init.
  - reflexivity.
  - discriminate.
Defined.

Lemma demo_start_init : gc_init demo_platform demo_start = Ok demo_started.
Proof. reflexivity. Qed.

Lemma demo_first_returns :
  gc_alloc demo_platform 8 demo_first_env demo_start
  = Ok (10000, demo_after_first).
Proof.
  unfold demo_after_first.
  destruct (gc_alloc demo_platform 8 demo_first_env demo_start)
    as [[p st']| | |] eqn:H;
    apply (f_equal (λ o, match o with Ok r => Some r.1 | _ => None end)) in H;
    vm_compute in H; [|discriminate..].
  by injection H as <-.
Qed.

Lemma demo_first_env_ok :
  alloc_env_ok demo_platform 8 demo_first_env demo_started.
Proof.
  split.
  - change (allocations demo_started) with (∅ : gmap Z Z).
    right. repeat split; [by vm_compute..|].
    intros a s Ha. by rewrite lookup_empty in Ha.
  - intros Hnull. vm_compute in Hnull. discriminate.
Qed.

Lemma demo_alloc_returns :
  gc_alloc demo_platform 8 demo_env demo_state = Ok (10032, demo_after_alloc).
Proof.
  unfold demo_after_alloc.
  destruct (gc_alloc demo_platform 8 demo_env demo_state)
    as [[p st']| | |] eqn:H;
    apply (f_equal (λ o, match o with Ok r => Some r.1 | _ => None end)) in H;
    vm_compute in H; [|discriminate..].
  by injection H as <-.
Qed.

Lemma demo_after_alloc_total : current_allocated demo_after_alloc = 32.
Proof. vm_compute. reflexivity. Qed.


Lemma gc_alloc_tracks_witness :
  ∃ p st' before,
    gc_alloc demo_platform 8 demo_env demo_state = Ok (p, st') ∧
    ((internal_alloc 8 (first_ret demo_env) demo_state).1 ≠ 0 ∧
     before = demo_state ∨
     (internal_alloc 8 (first_ret demo_env) demo_state).1 = 0 ∧
     gc_collect demo_platform (collect_env demo_env)
       (internal_alloc 8 (first_ret demo_env) demo_state).2 = Ok before) ∧
    (p ≠ 0 →
     (∀ x, p ≤ x < p + 8 → mem st' x = x00) ∧
     allocations before !! p = None ∧
     allocations st' = <[p:=8]> (allocations before) ∧
     current_allocated st' = current_allocated before + 8) ∧
    (p = 0 →
     allocations st' = allocations before ∧
     current_allocated st' = current_allocated before).
Proof.
  apply (gc_alloc_tracks demo_platform 8 demo_env demo_state demo_state).
  - exact demo_init.
  - exact demo_heap_wf.
  - discriminate.
  - exact demo_env_ok.
Defined.

(** * Further properties of the code *)

(** ** Initialization runs once *)

(** X1. Once [gc_init] has succeeded, every later call returns at once
    and leaves the state as it is, whatever the platform would answer
    then: the roots found first are kept for the life of the process. *)
Theorem gc_init_once (P P' : platform) (st st0 : gc_state) :
  gc_init P st = Ok st0 → gc_init P' st0 = Ok st0.
Proof.
  intros Hinit. apply gc_init_initialized.
  by apply gc_init_Ok in Hinit as (? & _).
Qed.

Lemma gc_init_once_witness :
  gc_init (Platform 5 0 0 None 0) demo_started = Ok demo_started.
Proof.
  apply (gc_init_once demo_platform (Platform 5 0 0 None 0)
           demo_start demo_started).
  exact demo_start_init.
Defined.

(** X2. When the stack region cannot be found, the first call into the
    collector, [gc_alloc] or [gc_collect], ends the process with status
    1 before anything is allocated or scanned. *)
Theorem first_call_exits (P : platform) (size : Z) (e : alloc_env)
    (s : snapshot) (st : gc_state) :
  gc_initialized st = false → region_kr P ≠ 0 →
  gc_alloc P size e st = Exit 1 ∧ gc_collect P s st = Exit 1.
Proof.
  intros Hi Hkr. unfold gc_alloc, gc_collect.
  by rewrite (gc_init_stack_failure P st Hi Hkr).
Qed.

Lemma first_call_exits_witness :
  gc_alloc (Platform 5 0 0 (Some (8192, 16)) 0) 8 demo_env
    (initial_state (λ _, x00)) = Exit 1 ∧
  gc_collect (Platform 5 0 0 (Some (8192, 16)) 0) demo_snapshot
    (initial_state (λ _, x00)) = Exit 1.
Proof.
  apply (first_call_exits (Platform 5 0 0 (Some (8192, 16)) 0) 8 demo_env
           demo_snapshot (initial_state (λ _, x00))).
  - reflexivity.
  - discriminate.
Defined.

(** ** What a collection reclaims and what it keeps *)

(** X3. A tracked block that no chain of stored words leads to from
    the registers, the in-use stack or the data segment is reclaimed by
    the collection: it leaves the allocation table and is passed to
    [free], and with the overwrite flag set the call just before that
    [free] is [memset] with 0xab over the whole block. *)
Theorem collect_reclaims_unreachable (P : platform) (s : snapshot)
    (st st0 : gc_state) :
  gc_init P st = Ok st0 → scratch s ≠ 0 →
  ∃ st' new,
    gc_collect P s st = Ok st' ∧
    events st'
    = new ++ [EvFree (scratch s); EvCalloc 8 15 (scratch s); EvCollect]
          ++ events st0 ∧
    ∀ b sz,
      allocations st0 !! b = Some sz → ¬ live s st0 b →
      allocations st' !! b = None ∧
      ∃ newer older,
        new = newer
              ++ EvFree b
                 :: (if overwrite_reclaimed_blocks st0
                     then [EvMemset b xab sz] else [])
              ++ older.
Proof.
  intros Hinit Hs.
  destruct (gc_collect_effect P s st st0 Hinit Hs)
    as (marked & st' & new & Hm & Hc & HA & _ & _ & _ & _ & Hev & Hnew
        & _).
  pose proof (scanned_from_empty _ _ _ _ (mark_scanned _ _ _ Hm)) as Hexact.
  exists st', new. split; [done|]. split; [done|].
  intros b sz Hb Hunreach.
  assert (marked !! b = None) as Hnone.
  { destruct (marked !! b) as [y|] eqn:Hy; [|done].
    exfalso. apply Hunreach, reachable_live. by apply (Hexact b y). }
  split; [by rewrite HA|]. by eapply gc_collect_order.
Qed.

Lemma collect_reclaims_unreachable_witness :
  ∃ st' new,
    gc_collect demo_platform demo_snapshot demo_state = Ok st' ∧
    events st'
    = new ++ [EvFree (scratch demo_snapshot);
              EvCalloc 8 15 (scratch demo_snapshot); EvCollect]
          ++ events demo_state ∧
    ∀ b sz,
      allocations demo_state !! b = Some sz →
      ¬ live demo_snapshot demo_state b →
      allocations st' !! b = None ∧
      ∃ newer older,
        new = newer
              ++ EvFree b
                 :: (if overwrite_reclaimed_blocks demo_state
                     then [EvMemset b xab sz] else [])
              ++ older.
Proof.
  apply (collect_reclaims_unreachable demo_platform demo_snapshot
           demo_state demo_state).
  - exact demo_init.
  - discriminate.
Defined.

(** The word at an address the scanner reads is a word of the region. *)
Lemma region_words_at m start length (i : nat) :
  start + 8 * Z.of_nat i < region_end start length →
  load64 m (start + 8 * Z.of_nat i) ∈ region_words m start length.
Proof.
  intros Hlt. unfold region_words. apply list_elem_of_fmap.
  exists (start + 8 * Z.of_nat i). split; [done|].
  apply region_addrs_spec. eauto.
Qed.

Lemma register_buffer_at s (i : nat) v :
  (i < 14)%nat → registers s !! i = Some v → v ∈ register_buffer s.
Proof.
  intros Hi Hv. unfold register_buffer. apply elem_of_app. left.
  apply list_elem_of_lookup. exists i.
  rewrite lookup_resize by (done || eauto using lookup_lt_Some).
  done.
Qed.

Lemma region_end_in_space start length :
  0 ≤ start + length < 2 ^ 64 → region_end start length = start + length.
Proof. intros. unfold region_end. by apply wrap64_small. Qed.

Lemma stack_region_end top rsp :
  0 ≤ top < 2 ^ 64 → region_end rsp (wrap64 (top - rsp)) = top.
Proof.
  intros Htop. unfold region_end, wrap64.
  rewrite Zplus_mod_idemp_r. replace (rsp + (top - rsp)) with top by lia.
  by apply Z.mod_small.
Qed.

(** X4. A tracked block whose base address is held in one of the 14
    registers read, in a word of the stack at [rsp + 8 i] below the end
    of the stack region, or in a word of the data segment at
    [start + 8 i], is still in the allocation table, with its size,
    after the collection. *)
Theorem collect_keeps_rooted (P : platform) (s : snapshot)
    (st st0 : gc_state) (b sz : Z) :
  gc_init P st = Ok st0 → scratch s ≠ 0 →
  allocations st0 !! b = Some sz →
  (∃ i : nat, (i < 14)%nat ∧ registers s !! i = Some b) ∨
  (0 ≤ curr_stack s ∧ stack_start st0 + stack_length st0 < 2 ^ 64 ∧
   ∃ i : nat,
     curr_stack s + 8 * Z.of_nat i < stack_start st0 + stack_length st0 ∧
     load64 (mem st0) (curr_stack s + 8 * Z.of_nat i) = b) ∨
  (0 ≤ data_segment_start st0 ∧
   data_segment_start st0 + data_segment_length st0 < 2 ^ 64 ∧
   ∃ i : nat,
     8 * Z.of_nat i < data_segment_length st0 ∧
     load64 (mem st0) (data_segment_start st0 + 8 * Z.of_nat i) = b) →
  ∃ st', gc_collect P s st = Ok st' ∧ allocations st' !! b = Some sz.
Proof.
  intros Hinit Hs Hb Hroot.
  destruct (gc_collect_effect P s st st0 Hinit Hs)
    as (marked & st' & new & Hm & Hc & HA & _).
  pose proof (scanned_from_empty _ _ _ _ (mark_scanned _ _ _ Hm)) as Hexact.
  exists st'. split; [done|]. rewrite HA. apply Hexact. split; [done|].
  apply reachable_root; [|eauto]. unfold root_words.
  rewrite !elem_of_app.
  destruct Hroot as [(i & Hi & Hreg)|[(H0 & Htop & i & Hlt & <-)
                                     |(H0 & Hend & i & Hlt & <-)]].
  - left. by eapply register_buffer_at.
  - right. left. apply region_words_at.
    rewrite stack_region_end by lia. done.
  - right. right. apply region_words_at.
    rewrite region_end_in_space by lia. lia.
Qed.

Lemma collect_keeps_rooted_witness :
  ∃ st',
    gc_collect demo_platform demo_snapshot demo_state = Ok st' ∧
    allocations st' !! 10000 = Some 16.
Proof.
  apply (collect_keeps_rooted demo_platform demo_snapshot
           demo_state demo_state 10000 16).
  - exact demo_init.
  - discriminate.
  - reflexivity.
  - right. right. split; [discriminate|]. split; [reflexivity|].
    exists 0%nat. split; [reflexivity|]. vm_compute. reflexivity.
Defined.

(** X5. A tracked block whose base address is stored in a word of a
    block that survives the collection, at an offset [8 i] inside that
    block, survives too: a list is kept whole as long as its head is
    kept. *)
Theorem collect_keeps_linked (P : platform) (s : snapshot)
    (st st0 st' : gc_state) (a sza b szb : Z) (i : nat) :
  gc_init P st = Ok st0 → gc_collect P s st = Ok st' →
  allocations st' !! a = Some sza →
  allocations st0 !! b = Some szb →
  0 ≤ a → a + sza < 2 ^ 64 → 8 * Z.of_nat i < sza →
  load64 (mem st0) (a + 8 * Z.of_nat i) = b →
  allocations st' !! b = Some szb.
Proof.
  intros Hinit Hc Ha Hb H0 Hend Hi Hload.
  destruct (gc_collect_inv _ _ _ _ Hc) as (st0' & Hinit' & Hs).
  assert (st0' = st0) as -> by congruence.
  destruct (gc_collect_effect P s st st0 Hinit Hs)
    as (marked & st'' & new & Hm & Hc' & HA & _).
  assert (st'' = st') as -> by congruence.
  pose proof (scanned_from_empty _ _ _ _ (mark_scanned _ _ _ Hm)) as Hexact.
  rewrite HA in *. apply Hexact in Ha as [Ha Hra].
  apply Hexact. split; [done|].
  eapply reachable_step; [exact Hra|exact Ha| |eauto].
  rewrite <- Hload. apply region_words_at.
  rewrite region_end_in_space by lia. lia.
Qed.

Lemma collect_keeps_linked_witness :
  allocations
    (match gc_collect demo_platform demo_snapshot demo_state with
     | Ok st' => st'
     | _ => demo_state
     end) !! 10016 = Some 8.
Proof.
  apply (collect_keeps_linked demo_platform demo_snapshot demo_state
           demo_state _ 10000 16 10016 8 1%nat).
  - exact demo_init.
  - by destruct (gc_collect_Ok demo_platform demo_snapshot demo_state
                   demo_state demo_init ltac:(discriminate))
      as (marked & _ & ->).
  - vm_compute. reflexivity.
  - reflexivity.
  - discriminate.
  - reflexivity.
  - reflexivity.
  - vm_compute. reflexivity.
Defined.

(** ** Collecting again *)

Lemma reachable_restrict m (A M : gmap Z Z) roots :
  (∀ k sz, M !! k = Some sz ↔ A !! k = Some sz ∧ reachable m A roots k) →
  ∀ k, reachable m A roots k → reachable m M roots k.
Proof.
  intros Hexact k Hr.
  induction Hr as [v Hv [sz HA]|a sz v Hra IH Ha Hv [szv HA]].
  - apply reachable_root; [done|]. exists sz. apply Hexact.
    split; [done|]. apply reachable_root; eauto.
  - eapply reachable_step; [exact IH| |exact Hv|].
    + apply Hexact. eauto.
    + exists szv. apply Hexact. split; [done|].
      eapply reachable_step; eauto.
Qed.

Lemma gc_collect_roots P s st st0 st' :
  gc_init P st = Ok st0 → gc_collect P s st = Ok st' →
  stack_start st' = stack_start st0 ∧
  stack_length st' = stack_length st0 ∧
  data_segment_start st' = data_segment_start st0 ∧
  data_segment_length st' = data_segment_length st0.
Proof.
  intros Hinit Hc.
  destruct (gc_collect_inv _ _ _ _ Hc) as (st0' & Hinit' & Hs).
  assert (st0' = st0) as -> by congruence.
  destruct (gc_collect_Ok P s st st0 Hinit Hs) as (marked & _ & Hc').
  rewrite Hc in Hc'. by injection Hc' as ->.
Qed.


Lemma demo_quiet_collect :
  gc_collect demo_platform demo_snapshot demo_quiet = Ok demo_quiet_collected.
Proof.
  unfold demo_quiet_collected.
  by destruct (gc_collect_Ok demo_platform demo_snapshot demo_quiet
                 demo_quiet eq_refl ltac:(discriminate))
    as (marked & _ & ->).
Qed.


(** ** The debug settings and the collection *)

Lemma gc_init_verbose P flag st :
  gc_init P (gc_debug_enable_verbose_logging flag st)
  = match gc_init P st with
    | Ok st0 => Ok (gc_debug_enable_verbose_logging flag st0)
    | Exit status => Exit status
    | Undefined => Undefined
    | OutOfFuel => OutOfFuel
    end.
Proof.
  unfold gc_init. simpl. destruct (gc_initialized st); [done|].
  case_bool_decide; [done|]. by destruct (data_segment P) as [[? ?]|].
Qed.

Lemma gc_init_max_heap P size st :
  gc_init P (gc_debug_set_max_heap size st)
  = match gc_init P st with
    | Ok st0 => Ok (gc_debug_set_max_heap size st0)
    | Exit status => Exit status
    | Undefined => Undefined
    | OutOfFuel => OutOfFuel
    end.
Proof.
  unfold gc_init. simpl. destruct (gc_initialized st); [done|].
  case_bool_decide; [done|]. by destruct (data_segment P) as [[? ?]|].
Qed.

Lemma gc_init_overwrite P flag st :
  gc_init P (gc_debug_overwrite_reclaimed_blocks flag st)
  = match gc_init P st with
    | Ok st0 => Ok (gc_debug_overwrite_reclaimed_blocks flag st0)
    | Exit status => Exit status
    | Undefined => Undefined
    | OutOfFuel => OutOfFuel
    end.
Proof.
  unfold gc_init. simpl. destruct (gc_initialized st); [done|].
  case_bool_decide; [done|]. by destruct (data_segment P) as [[? ?]|].
Qed.



(** ** What is freed *)

Section freed_by_sweep.

Context (M : gmap Z Z).

Lemma sweep_freed ovw l :
  ∀ m evs t,
    freed (foldl (sweep_step M ovw) (m, evs, t) l).1.2
    = reverse (filter (λ e, M !! e.1 = None) l).*1 ++ freed evs.
Proof.
  induction l as [|[a sz] l IH]; intros m evs t; [done|].
  cbn [foldl]. rewrite filter_cons. unfold sweep_step at 2. simpl.
  destruct (M !! a) as [x|] eqn:Ha.
  - rewrite decide_False by done. apply IH.
  - rewrite decide_True by done. rewrite IH.
    rewrite fmap_cons, reverse_cons, <- app_assoc. simpl.
    by destruct ovw.
Qed.

End freed_by_sweep.

(** X8. A collection frees the register buffer and the blocks that
    leave the allocation table, and nothing else; when the buffer is not
    itself a tracked block, no address is freed twice. *)
Theorem collect_frees_each_once (P : platform) (s : snapshot)
    (st st0 : gc_state) :
  gc_init P st = Ok st0 → scratch s ≠ 0 →
  allocations st0 !! scratch s = None →
  ∃ st' new,
    gc_collect P s st = Ok st' ∧
    events st' = new ++ events st0 ∧
    freed new
    ≡ₚ scratch s :: (map_to_list (allocations st0 ∖ allocations st')).*1 ∧
    NoDup (freed new).
Proof.
  intros Hinit Hs Hfresh.
  destruct (gc_collect_Ok P s st st0 Hinit Hs) as (marked & Hm & Hc).
  set (st1 := emit (EvFree (scratch s))
                (emit (EvCalloc 8 15 (scratch s)) (emit EvCollect st0))) in *.
  destruct (sweep_events marked (overwrite_reclaimed_blocks st1)
              (map_to_list (allocations st1)) (mem st1) (events st1) 0)
    as (new & Hev & _).
  pose proof (sweep_freed marked (overwrite_reclaimed_blocks st1)
                (map_to_list (allocations st1)) (mem st1) (events st1) 0)
    as Hfreed.
  rewrite Hev in Hfreed. unfold freed in Hfreed at 1.
  rewrite omap_app in Hfreed. apply app_inv_tail in Hfreed.
  destruct (sweep_heap marked st1) as (HA & _).
  assert (freed (new ++ [EvFree (scratch s); EvCalloc 8 15 (scratch s);
                         EvCollect])
          ≡ₚ scratch s :: (map_to_list (allocations st0 ∖ marked)).*1)
    as Hperm.
  { unfold freed. rewrite omap_app. fold (freed new). unfold freed at 1.
    rewrite Hfreed. simpl.
    rewrite <- Permutation_cons_append, reverse_Permutation.
    apply Permutation_skip, fmap_Permutation, unmarked_entries_perm. }
  exists (sweep marked st1),
    (new ++ [EvFree (scratch s); EvCalloc 8 15 (scratch s); EvCollect]).
  split; [done|]. split.
  { change (events (sweep marked st1))
      with (foldl (sweep_step marked (overwrite_reclaimed_blocks st1))
              (mem st1, events st1, 0) (map_to_list (allocations st1))).1.2.
    rewrite Hev. by rewrite <- app_assoc. }
  rewrite HA. split; [done|].
  rewrite Hperm. apply NoDup_cons. split; [|apply NoDup_fst_map_to_list].
  intros ([a sz] & Heq & Hin)%list_elem_of_fmap.
  apply elem_of_map_to_list, lookup_difference_Some in Hin as [Hin _].
  simpl in Heq. congruence.
Qed.

Lemma collect_frees_each_once_witness :
  ∃ st' new,
    gc_collect demo_platform demo_snapshot demo_state = Ok st' ∧
    events st' = new ++ events demo_state ∧
    freed new
    ≡ₚ scratch demo_snapshot
       :: (map_to_list (allocations demo_state ∖ allocations st')).*1 ∧
    NoDup (freed new).
Proof.
  apply (collect_frees_each_once demo_platform demo_snapshot
           demo_state demo_state).
  - exact demo_init.
  - discriminate.
  - reflexivity.
Defined.

(** ** Edges of the cap test and of the scan *)

(** X9. The cap test adds in 64 bits.  A request so large that
    [current_allocated + size] passes 2^64 is tested on the wrapped sum:
    when that is within the cap, [internal_alloc] calls [calloc] although
    the request is over the cap. *)
Theorem cap_test_wraps (size ret : Z) (st : gc_state) :
  0 < max_heap_size st < 2 ^ 64 →
  0 ≤ current_allocated st < 2 ^ 64 → 0 ≤ size < 2 ^ 64 →
  2 ^ 64 ≤ current_allocated st + size →
  current_allocated st + size - 2 ^ 64 ≤ max_heap_size st →
  max_heap_size st < current_allocated st + size ∧
  (internal_alloc size ret st).1 = ret ∧
  events (internal_alloc size ret st).2
  = EvInternalAlloc size ret :: EvCalloc 1 size ret :: events st.
Proof.
  intros Hcap Hcur Hsize Hwrap Hle.
  assert (wrap64 (current_allocated st + size)
          = current_allocated st + size - 2 ^ 64) as Hw.
  { unfold wrap64. symmetry.
    apply (Z.mod_unique _ _ 1); lia. }
  assert (cap_exceeded st size = false) as Hpass.
  { unfold cap_exceeded. rewrite Hw. apply andb_false_iff. right.
    apply bool_decide_eq_false_2. lia. }
  rewrite internal_alloc_passed by done.
  split; [lia|]. split; [done|].
  unfold calloc. simpl. by case_bool_decide.
Qed.

Lemma cap_test_wraps_witness :
  max_heap_size demo_state < current_allocated demo_state + (2 ^ 64 - 16) ∧
  (internal_alloc (2 ^ 64 - 16) 0 demo_state).1 = 0 ∧
  events (internal_alloc (2 ^ 64 - 16) 0 demo_state).2
  = EvInternalAlloc (2 ^ 64 - 16) 0 :: EvCalloc 1 (2 ^ 64 - 16) 0
    :: events demo_state.
Proof.
  apply (cap_test_wraps (2 ^ 64 - 16) 0 demo_state);
    simpl; lia.
Defined.

(** X10. The stack scan reads the words at [rsp], [rsp + 8], ... that
    start below the end of the stack region and nothing else; with the
    stack pointer at or above that end it reads nothing. *)
Theorem stack_scan_extent (m : memory) (stack_start stack_length rsp : Z) :
  0 ≤ stack_start + stack_length < 2 ^ 64 →
  (∀ p, p ∈ region_addrs rsp
              (wrap64 (stack_start + stack_length - rsp)) ↔
        ∃ i : nat, p = rsp + 8 * Z.of_nat i ∧
                   p < stack_start + stack_length) ∧
  (stack_start + stack_length ≤ rsp →
   region_words m rsp (wrap64 (stack_start + stack_length - rsp)) = []).
Proof.
  intros Htop.
  assert (∀ p, p ∈ region_addrs rsp
                     (wrap64 (stack_start + stack_length - rsp)) ↔
               ∃ i : nat, p = rsp + 8 * Z.of_nat i ∧
                          p < stack_start + stack_length) as Hspec.
  { intros p. rewrite region_addrs_spec. by rewrite stack_region_end. }
  split; [done|]. intros Hle.
  unfold region_words.
  destruct (region_addrs rsp (wrap64 (stack_start + stack_length - rsp)))
    as [|p l] eqn:Hl; [done|].
  destruct (proj1 (Hspec p)) as (i & -> & Hlt); [|lia].
  apply list_elem_of_here.
Qed.

Lemma stack_scan_extent_witness :
  (∀ p, p ∈ region_addrs 4320 (wrap64 (4096 + 256 - 4320)) ↔
        ∃ i : nat, p = 4320 + 8 * Z.of_nat i ∧ p < 4096 + 256) ∧
  (4096 + 256 ≤ 4320 →
   region_words demo_memory 4320 (wrap64 (4096 + 256 - 4320)) = []).
Proof.
  apply (stack_scan_extent demo_memory 4096 256 4320). simpl. lia.
Defined.

(** X15. A region whose tracked words are all in the mark set already
    adds nothing to it: no block is entered a second time.  An empty
    region is the simplest case. *)
Theorem scan_block_of_marked (fuel : nat) (m : memory) (A : gmap Z Z)
    (start length : Z) (marked : gmap Z Z) :
  (∀ v, v ∈ region_words m start length →
        A !! v = None ∨ is_Some (marked !! v)) →
  gc_collect_scan_block (S fuel) m A start length marked = Some marked.
Proof.
  unfold gc_collect_scan_block.
  induction (region_words m start length) as [|v ws IH]; intros Hws.
  - apply scan_words_nil.
  - rewrite scan_words_cons.
    assert (scan_words (S fuel) m A ws marked = Some marked) as Hrest.
    { apply IH. intros w Hw. apply Hws. by apply list_elem_of_further. }
    destruct (Hws v (list_elem_of_here _ _)) as [->|[x ->]]; [done|].
    by destruct (A !! v).
Qed.

Lemma scan_block_of_marked_witness :
  gc_collect_scan_block 1 demo_memory demo_heap 8192 16
    {[ 10000 := 16 ]} = Some {[ 10000 := 16 ]}.
Proof.
  apply (scan_block_of_marked 0 demo_memory demo_heap 8192 16
           {[ 10000 := 16 ]}).
  intros v Hv. vm_compute in Hv.
  apply elem_of_cons in Hv as [->|Hv]; [right; by eexists|].
  apply elem_of_cons in Hv as [->|Hv]; [by left|].
  by apply elem_of_nil in Hv.
Defined.

(** ** The macros of the test program *)

(** X13. [UNSCRAMBLE] undoes [SCRAMBLE] on every 64-bit pointer, and
    a scrambled pointer differs from the pointer: it is not the base
    address the collector looks for. *)
Theorem unscramble_scramble (p : Z) :
  0 ≤ p < 2 ^ 64 → UNSCRAMBLE (SCRAMBLE p) = p ∧ SCRAMBLE p ≠ p.
Proof.
  intros Hp. unfold UNSCRAMBLE, SCRAMBLE, wrap64.
  destruct (decide (p = 2 ^ 64 - 1)) as [->|Hne].
  - split; [reflexivity|discriminate].
  - rewrite (Z.mod_small (p + 1)) by lia.
    replace (p + 1 - 1) with p by lia.
    rewrite Z.mod_small by lia. split; [done|lia].
Qed.

Lemma unscramble_scramble_witness :
  UNSCRAMBLE (SCRAMBLE 10000) = 10000 ∧ SCRAMBLE 10000 ≠ 10000.
Proof. apply (unscramble_scramble 10000). split; [discriminate|reflexivity]. Defined.

(** ** The accounting *)



(** ** The register buffer *)

(** X14. On a 15-slot buffer whose last slot holds zero, as in the
    buffer [calloc] returns, [get_registers] leaves exactly the words
    the collection scans as its first root region: the 14 registers in
    slots 0 to 13, whatever these slots held, and the zero in slot 14,
    which is not written. *)
Theorem get_registers_buffer (regs buffer : list Z) (sc rsp : Z) :
  length buffer = 15%nat → buffer !! 14%nat = Some 0 →
  get_registers regs buffer = register_buffer (Snapshot sc regs rsp).
Proof.
  intros Hlen Hlast.
  do 16 (destruct buffer as [|? buffer]; try discriminate Hlen).
  injection Hlast as ->.
  unfold register_buffer. cbn [registers].
  assert (resize 14 0 regs
          = map (λ i, default 0 (regs !! i)) (seq 0 14)) as ->.
  { do 14 (destruct regs as [|? regs]; [reflexivity|]).
    by destruct regs. }
  reflexivity.
Qed.

Lemma get_registers_buffer_witness :
  get_registers [10000; 2; 3; 4; 5; 6; 7; 8; 9; 10; 11; 12; 13; 10016]
    (replicate 14 7 ++ [0])
  = register_buffer
      (Snapshot 20000
         [10000; 2; 3; 4; 5; 6; 7; 8; 9; 10; 11; 12; 13; 10016] 4320).
Proof.
  apply (get_registers_buffer
           [10000; 2; 3; 4; 5; 6; 7; 8; 9; 10; 11; 12; 13; 10016]
           (replicate 14 7 ++ [0]) 20000 4320); reflexivity.
Defined.

(** ** Allocation and the blocks in use *)

Lemma internal_alloc_frame size ret st :
  stack_start (internal_alloc size ret st).2 = stack_start st ∧
  stack_length (internal_alloc size ret st).2 = stack_length st ∧
  data_segment_start (internal_alloc size ret st).2
  = data_segment_start st ∧
  data_segment_length (internal_alloc size ret st).2
  = data_segment_length st ∧
  mem (internal_alloc size ret st).2
  = (if cap_exceeded st size || bool_decide (ret = 0) then mem st
     else memset (mem st) ret x00 (1 * size)).
Proof.
  unfold internal_alloc, calloc.
  destruct (cap_exceeded st size); [done|]. by case_bool_decide.
Qed.

Lemma internal_alloc_null_mem size ret st :
  (internal_alloc size ret st).1 = 0 →
  mem (internal_alloc size ret st).2 = mem st.
Proof.
  intros Hnull.
  destruct (internal_alloc_frame size ret st) as (_ & _ & _ & _ & ->).
  destruct (internal_alloc_result size ret st) as [_|[Hret Hpass]].
  - unfold internal_alloc in Hnull.
    destruct (cap_exceeded st size); [done|]. simpl in Hnull.
    by rewrite bool_decide_eq_true_2.
  - rewrite Hpass. rewrite bool_decide_eq_true_2; [done|congruence].
Qed.

Lemma mark_ext s st st' :
  mem st' = mem st → allocations st' = allocations st →
  stack_start st' = stack_start st → stack_length st' = stack_length st →
  data_segment_start st' = data_segment_start st →
  data_segment_length st' = data_segment_length st →
  mark s st' = mark s st ∧ root_words s st' = root_words s st.
Proof.
  unfold mark, root_words. by intros -> -> -> -> -> ->.
Qed.

(** What a collection keeps, for a collection that has returned. *)
Lemma gc_collect_keeps P s st st0 st' b sz :
  gc_init P st = Ok st0 → gc_collect P s st = Ok st' →
  blocks_apart (allocations st0) →
  allocations st0 !! b = Some sz →
  reachable (mem st0) (allocations st0) (root_words s st0) b →
  allocations st' !! b = Some sz ∧
  ∀ x, b ≤ x < b + sz → mem st' x = mem st0 x.
Proof.
  intros Hinit Hc Hapart Hb Hr.
  destruct (gc_collect_inv _ _ _ _ Hc) as (st0' & Hinit' & Hs).
  assert (st0' = st0) as -> by congruence.
  destruct (gc_collect_effect P s st st0 Hinit Hs)
    as (marked & st'' & new & Hm & Hc' & HA & _ & _ & _ & _ & _ & _
        & Hout & _).
  assert (st'' = st') as -> by congruence.
  pose proof (scanned_from_empty _ _ _ _ (mark_scanned _ _ _ Hm)) as Hexact.
  assert (marked !! b = Some sz) as Hmb by (by apply Hexact).
  split; [by rewrite HA|].
  intros x Hx. apply Hout. intros a sza Ha Hn Hxa.
  assert (a ≠ b) as Hne by congruence.
  destruct (Hapart a sza b sz Ha Hb Hne); lia.
Qed.

(** One attempt and its bookkeeping leave the tracked blocks alone. *)
Lemma attempt_keeps size ret st b sz :
  calloc_ok (allocations st) size ret →
  allocations st !! b = Some sz →
  let r := track size (internal_alloc size ret st) in
  allocations r.2 !! b = Some sz ∧
  (∀ x, b ≤ x < b + sz → mem r.2 x = mem st x) ∧
  (r.1 ≠ 0 → r.1 = ret ∧ (ret + size ≤ b ∨ b + sz ≤ ret)).
Proof.
  intros Hok Hb r. subst r.
  destruct (internal_alloc_heap size ret st) as (HA & _).
  rewrite track_result.
  destruct (decide ((internal_alloc size ret st).1 = 0)) as [Hnull|Hnz].
  - unfold track. rewrite bool_decide_eq_true_2 by done.
    rewrite HA, (internal_alloc_null_mem _ _ _ Hnull). done.
  - destruct (internal_alloc_result size ret st) as [?|[Hret Hpass]]; [done|].
    destruct Hok as [?|(Hpos & Hend & Hfresh & Hfar)]; [congruence|].
    unfold track. rewrite bool_decide_eq_false_2 by done. simpl.
    destruct (internal_alloc_frame size ret st) as (_ & _ & _ & _ & ->).
    rewrite Hpass, HA, Hret. simpl.
    rewrite bool_decide_eq_false_2 by congruence.
    split; [|split].
    + rewrite lookup_insert_ne; [done|congruence].
    + intros x Hx. unfold memset. rewrite bool_decide_eq_false_2; [done|].
      destruct (Hfar _ _ Hb); lia.
    + intros _. split; [done|]. by apply Hfar.
Qed.

(** X11. [gc_alloc] returns null or an address [calloc] returned.  A
    block reachable from the roots at the call, or any tracked block if
    the first attempt succeeds, is still in the table after the call
    with its size, its bytes are untouched, and the block returned does
    not overlap it. *)
Theorem gc_alloc_keeps_live (P : platform) (size : Z) (e : alloc_env)
    (st st0 : gc_state) :
  gc_init P st = Ok st0 → heap_wf st → alloc_env_ok P size e st0 →
  ∃ p st',
    gc_alloc P size e st = Ok (p, st') ∧
    (p = 0 ∨ p = first_ret e ∨ p = retry_ret e) ∧
    ∀ b sz,
      allocations st0 !! b = Some sz →
      (internal_alloc size (first_ret e) st0).1 ≠ 0 ∨
      reachable (mem st0) (allocations st0)
        (root_words (collect_env e) st0) b →
      allocations st' !! b = Some sz ∧
      (∀ x, b ≤ x < b + sz → mem st' x = mem st0 x) ∧
      (p ≠ 0 → p + size ≤ b ∨ b + sz ≤ p).
Proof.
  intros Hinit Hwf [Hok1 Hretry].
  pose proof (heap_wf_init _ _ _ Hinit Hwf) as Hwf0.
  destruct (decide ((internal_alloc size (first_ret e) st0).1 = 0))
    as [Hfail|Hfirst].
  - destruct (Hretry Hfail) as [Hs Hok2].
    destruct (gc_alloc_collect P size e st st0 Hinit Hs)
      as (st2 & Hc & Hinit1).
    specialize (Hok2 st2 Hc).
    destruct (internal_alloc_heap size (first_ret e) st0) as (HA1 & _).
    destruct (internal_alloc_frame size (first_ret e) st0)
      as (Hss & Hsl & Hds & Hdl & _).
    pose proof (internal_alloc_null_mem _ _ _ Hfail) as Hmem1.
    destruct (mark_ext (collect_env e) st0
                (internal_alloc size (first_ret e) st0).2)
      as [_ Hroots]; try done.
    eexists _, _. split.
    { rewrite (gc_alloc_second _ _ _ _ _ _ Hinit Hfail Hc). as_pair. }
    rewrite track_result. split.
    { destruct (internal_alloc_result size (retry_ret e) st2)
        as [->|[-> _]]; auto. }
    intros b sz Hb [?|Hr]; [done|].
    destruct (gc_collect_keeps P (collect_env e) _ _ st2 b sz Hinit1 Hc)
      as [Hb2 Hmem2].
    { rewrite HA1. by destruct Hwf0. }
    { by rewrite HA1. }
    { by rewrite Hmem1, HA1, Hroots. }
    destruct (attempt_keeps size (retry_ret e) st2 b sz Hok2 Hb2)
      as (Hb' & Hmem' & Hfar).
    rewrite track_result in Hfar.
    split; [done|]. split.
    + intros x Hx. rewrite Hmem', Hmem2, Hmem1; done.
    + intros Hp. by destruct (Hfar Hp) as [-> ?].
  - eexists _, _. split.
    { rewrite (gc_alloc_first _ _ _ _ _ Hinit Hfirst). as_pair. }
    rewrite track_result. split.
    { destruct (internal_alloc_result size (first_ret e) st0)
        as [->|[-> _]]; auto. }
    intros b sz Hb _.
    destruct (attempt_keeps size (first_ret e) st0 b sz Hok1 Hb)
      as (Hb' & Hmem' & Hfar).
    rewrite track_result in Hfar.
    split; [done|]. split; [done|].
    intros Hp. by destruct (Hfar Hp) as [-> ?].
Qed.

Lemma gc_alloc_keeps_live_witness :
  ∃ p st',
    gc_alloc demo_platform 8 demo_env demo_state = Ok (p, st') ∧
    (p = 0 ∨ p = first_ret demo_env ∨ p = retry_ret demo_env) ∧
    ∀ b sz,
      allocations demo_state !! b = Some sz →
      (internal_alloc 8 (first_ret demo_env) demo_state).1 ≠ 0 ∨
      reachable (mem demo_state) (allocations demo_state)
        (root_words (collect_env demo_env) demo_state) b →
      allocations st' !! b = Some sz ∧
      (∀ x, b ≤ x < b + sz → mem st' x = mem demo_state x) ∧
      (p ≠ 0 → p + 8 ≤ b ∨ b + sz ≤ p).
Proof.
  apply (gc_alloc_keeps_live demo_platform 8 demo_env demo_state demo_state).
  - exact demo_init.
  - exact demo_heap_wf.
  - exact demo_env_ok.
Defined.

(** X12. The cap never makes [gc_alloc] fail while the blocks in use
    leave room: if the blocks a collection would keep, plus the request,
    fit under the cap and [calloc] itself does not fail, [gc_alloc]
    returns a block, after a collection if one is needed.  Garbage alone
    cannot exhaust the cap. *)
Theorem gc_alloc_succeeds_when_live_fits (P : platform) (size : Z)
    (e : alloc_env) (st st0 : gc_state) :
  gc_init P st = Ok st0 → heap_wf st → 0 ≤ size →
  first_ret e ≠ 0 → retry_ret e ≠ 0 → scratch (collect_env e) ≠ 0 →
  (∀ marked, mark (collect_env e) st0 = Some marked →
             total_size marked + size ≤ max_heap_size st0) →
  ∃ p st', gc_alloc P size e st = Ok (p, st') ∧ p ≠ 0.
Proof.
  intros Hinit Hwf Hsize Hret1 Hret2 Hs Hfits.
  pose proof (heap_wf_init _ _ _ Hinit Hwf) as Hwf0.
  destruct (decide ((internal_alloc size (first_ret e) st0).1 = 0))
    as [Hfail|Hfirst].
  - destruct (gc_alloc_collect P size e st st0 Hinit Hs)
      as (st2 & Hc & Hinit1).
    set (st1 := (internal_alloc size (first_ret e) st0).2) in *.
    destruct (internal_alloc_heap size (first_ret e) st0)
      as (HA1 & _ & Hmax1 & _).
    destruct (internal_alloc_frame size (first_ret e) st0)
      as (Hss & Hsl & Hds & Hdl & _).
    pose proof (internal_alloc_null_mem _ _ _ Hfail) as Hmem1.
    destruct (mark_ext (collect_env e) st0 st1) as [Hmark _]; try done.
    destruct (gc_collect_Ok P (collect_env e) st1 st1 Hinit1 Hs)
      as (marked & Hm & Hc').
    rewrite Hc in Hc'. injection Hc' as Heq.
    destruct (heap_wf_sweep (collect_env e)
                (emit (EvFree (scratch (collect_env e)))
                   (emit (EvCalloc 8 15 (scratch (collect_env e)))
                      (emit EvCollect st1))) marked)
      as ([_ Hrange _ _] & Hcur & _).
    { pose proof (heap_wf_internal_alloc size (first_ret e) st0 Hwf0)
        as Hwf1. by destruct Hwf1. }
    { done. }
    rewrite Hmark in Hm. specialize (Hfits marked Hm).
    destruct (sweep_heap marked
                (emit (EvFree (scratch (collect_env e)))
                   (emit (EvCalloc 8 15 (scratch (collect_env e)))
                      (emit EvCollect st1))))
      as (HA2 & _ & Hmax2 & _).
    rewrite <- Heq in Hrange, Hcur, HA2, Hmax2.
    rewrite HA2 in Hrange.
    pose proof (total_size_nonneg _ Hrange) as Hge.
    assert (cap_exceeded st2 size = false) as Hpass.
    { unfold cap_exceeded. apply andb_false_iff. right.
      apply bool_decide_eq_false_2. rewrite Hcur, Hmax2. simpl.
      unfold st1. rewrite Hmax1.
      pose proof (Z.mod_le (total_size marked + size) (2 ^ 64)) as Hle.
      unfold wrap64. lia. }
    eexists _, _. split.
    { rewrite (gc_alloc_second _ _ _ _ _ _ Hinit Hfail Hc). as_pair. }
    rewrite track_result, internal_alloc_passed by done. done.
  - eexists _, _. split.
    { rewrite (gc_alloc_first _ _ _ _ _ Hinit Hfirst). as_pair. }
    by rewrite track_result.
Qed.

Lemma gc_alloc_succeeds_when_live_fits_witness :
  ∃ p st', gc_alloc demo_platform 8 demo_env demo_state = Ok (p, st') ∧ p ≠ 0.
Proof.
  apply (gc_alloc_succeeds_when_live_fits demo_platform 8 demo_env
           demo_state demo_state).
  - exact demo_init.
  - exact demo_heap_wf.
  - discriminate.
  - discriminate.
  - discriminate.
  - discriminate.
  - intros marked Hm. vm_compute in Hm. injection Hm as <-.
    vm_compute. discriminate.
Defined.

(** ** The roots are found once *)

Lemma gc_collect_initialized P s st st' :
  gc_collect P s st = Ok st' → gc_initialized st' = true.
Proof.
  intros Hc. destruct (gc_collect_inv _ _ _ _ Hc) as (st0 & Hinit & Hs).
  destruct (gc_collect_effect P s st st0 Hinit Hs)
    as (marked & st'' & new & _ & Hc' & _ & _ & _ & Hini & _).
  congruence.
Qed.

Lemma track_frame size r :
  stack_start (track size r).2 = stack_start r.2 ∧
  stack_length (track size r).2 = stack_length r.2 ∧
  data_segment_start (track size r).2 = data_segment_start r.2 ∧
  data_segment_length (track size r).2 = data_segment_length r.2 ∧
  gc_initialized (track size r).2 = gc_initialized r.2.
Proof. unfold track. by case_bool_decide. Qed.

Lemma gc_alloc_frame P size e st st0 p st' :
  gc_init P st = Ok st0 → gc_alloc P size e st = Ok (p, st') →
  stack_start st' = stack_start st0 ∧
  stack_length st' = stack_length st0 ∧
  data_segment_start st' = data_segment_start st0 ∧
  data_segment_length st' = data_segment_length st0 ∧
  gc_initialized st' = true.
Proof.
  intros Hinit Hga.
  pose proof (gc_init_Ok _ _ _ Hinit) as (Hini0 & _).
  destruct (internal_alloc_frame size (first_ret e) st0)
    as (Hss & Hsl & Hds & Hdl & _).
  destruct (internal_alloc_heap size (first_ret e) st0)
    as (_ & _ & _ & Hi1 & _).
  destruct (decide ((internal_alloc size (first_ret e) st0).1 = 0))
    as [Hfail|Hfirst].
  - unfold gc_alloc in Hga. rewrite Hinit in Hga.
    cbn [mbind outcome_bind] in Hga.
    rewrite bool_decide_eq_true_2 in Hga by done.
    destruct (gc_collect P (collect_env e)
                (internal_alloc size (first_ret e) st0).2)
      as [st2| | |] eqn:Hc; try discriminate Hga.
    cbn [mbind outcome_bind mret outcome_ret] in Hga. returned Hga.
    assert (gc_init P (internal_alloc size (first_ret e) st0).2
            = Ok (internal_alloc size (first_ret e) st0).2) as Hinit1
      by (apply gc_init_initialized; congruence).
    destruct (gc_collect_roots _ _ _ _ _ Hinit1 Hc) as (H1 & H2 & H3 & H4).
    pose proof (gc_collect_initialized P (collect_env e) _ _ Hc) as Hi2.
    destruct (track_frame size (internal_alloc size (retry_ret e) st2))
      as (-> & -> & -> & -> & ->).
    destruct (internal_alloc_frame size (retry_ret e) st2)
      as (-> & -> & -> & -> & _).
    destruct (internal_alloc_heap size (retry_ret e) st2)
      as (_ & _ & _ & -> & _).
    repeat split; congruence.
  - rewrite (gc_alloc_first _ _ _ _ _ Hinit Hfirst) in Hga. returned Hga.
    destruct (track_frame size (internal_alloc size (first_ret e) st0))
      as (-> & -> & -> & -> & ->).
    repeat split; congruence.
Qed.

Lemma roots_from_ext P st st' :
  stack_start st' = stack_start st → stack_length st' = stack_length st →
  data_segment_start st' = data_segment_start st →
  data_segment_length st' = data_segment_length st →
  roots_from P st → roots_from P st'.
Proof.
  intros H1 H2 H3 H4 (Hkr & va & vs & Hd & ? & ? & ? & ?).
  split; [done|]. exists va, vs. rewrite H1, H2, H3, H4. done.
Qed.

Lemma gc_init_roots P st st0 :
  gc_init P st = Ok st0 →
  (gc_initialized st = true → roots_from P st) → roots_from P st0.
Proof.
  unfold gc_init. destruct (gc_initialized st) eqn:Hi.
  - intros [= <-] Hst. by apply Hst.
  - case_bool_decide as Hkr; [discriminate|].
    destruct (data_segment P) as [[va vs]|] eqn:Hd; [|discriminate].
    intros [= <-] _. split.
    + destruct (decide (region_kr P = 0)); [done|]. by destruct Hkr.
    + by exists va, vs.
Qed.

Lemma step_roots P st st' :
  (gc_initialized st = true → roots_from P st) → step P st st' →
  gc_initialized st' = true → roots_from P st'.
Proof.
  intros Hst Hstep.
  destruct Hstep as [size e st st0 p st' Hsize Hinit _ Hga
                    |s st st' Hc|m st|flag st|flag st]; intros Hi'.
  - destruct (gc_alloc_frame _ _ _ _ _ _ _ Hinit Hga)
      as (H1 & H2 & H3 & H4 & _).
    eapply roots_from_ext; [done..|]. by eapply gc_init_roots.
  - destruct (gc_collect_inv _ _ _ _ Hc) as (st0 & Hinit & _).
    destruct (gc_collect_roots _ _ _ _ _ Hinit Hc) as (H1 & H2 & H3 & H4).
    eapply roots_from_ext; [done..|]. by eapply gc_init_roots.
  - by apply Hst.
  - by apply Hst.
  - by apply Hst.
Qed.


